(** * Page-replacement policies (algorithms.py): model and verification

    The five policies of [algorithms.py] ([fifo], [lru], [optimal],
    [second_chance], [clock]) are embedded as Rocq functions over the
    Python values they manipulate: pages and counters are integers
    ([Z]), frame lists are [list Z], a step dictionary is the record
    [step], the returned dictionary is the record [result].  Python
    exceptions are explicit: every operation that can raise returns an
    [outcome]. *)

From stdpp Require Import base tactics option numbers strings list.

Set Default Proof Using "Type".

(** ** Python primitives used by the policies *)

Module Py.

(** The built-in exceptions the list and integer operations can raise. *)
Inductive exn := IndexError | ValueError | ZeroDivisionError.

(** Result of running a piece of Python code: a value, a raised
    exception, or exhaustion of the iteration budget given to a
    [while] loop. *)
Inductive outcome (A : Type) :=
| Ret (a : A)
| Raise (e : exn)
| OutOfFuel.
Global Arguments Ret {A} a.
Global Arguments Raise {A} e.
Global Arguments OutOfFuel {A}.

Global Instance outcome_ret : MRet outcome := λ A a, Ret a.
Global Instance outcome_bind : MBind outcome := λ A B f m,
  match m with
  | Ret a => f a
  | Raise e => Raise e
  | OutOfFuel => OutOfFuel
  end.

(** [try: c except ValueError: h] *)
Definition except_ValueError {A} (c h : outcome A) : outcome A :=
  match c with
  | Raise ValueError => h
  | other => other
  end.

(** [for x in l: s = body(s, x)] *)
Fixpoint for_each {A S} (body : S → A → outcome S) (s : S) (l : list A)
  : outcome S :=
  match l with
  | [] => Ret s
  | x :: l' => s' ← body s x; for_each body s' l'
  end.

(** [enumerate(l, start)] *)
Fixpoint enumerate_from {A} (start : nat) (l : list A) : list (nat * A) :=
  match l with
  | [] => []
  | x :: l' => (start, x) :: enumerate_from (S start) l'
  end.
Definition enumerate {A} (l : list A) : list (nat * A) := enumerate_from 0 l.

(** [x in l] *)
Definition contains (x : Z) (l : list Z) : bool := bool_decide (x ∈ l).

(** Position of the first occurrence of [x] in [l], if any. *)
Fixpoint find_index (x : Z) (l : list Z) : option nat :=
  match l with
  | [] => None
  | y :: l' => if bool_decide (y = x) then Some 0 else S <$> find_index x l'
  end.

(** [l.index(x)]: raises ValueError when [x] does not occur. *)
Definition index (l : list Z) (x : Z) : outcome nat :=
  match find_index x l with
  | Some i => Ret i
  | None => Raise ValueError
  end.

(** [l.index(v)] where [v] may be [None]: a list of integers never
    contains [None]. *)
Definition index_opt (l : list Z) (v : option Z) : outcome nat :=
  match v with
  | Some x => index l x
  | None => Raise ValueError
  end.

(** [l.remove(x)]: drops the first occurrence, ValueError if none. *)
Fixpoint remove_first (x : Z) (l : list Z) : option (list Z) :=
  match l with
  | [] => None
  | y :: l' => if bool_decide (y = x) then Some l' else (y ::.) <$> remove_first x l'
  end.
Definition remove (l : list Z) (x : Z) : outcome (list Z) :=
  match remove_first x l with
  | Some l' => Ret l'
  | None => Raise ValueError
  end.

(** [l.pop(0)]: the popped element and the rest; IndexError on []. *)
Definition pop0 (l : list Z) : outcome (Z * list Z) :=
  match l with
  | [] => Raise IndexError
  | x :: l' => Ret (x, l')
  end.

(** Python subscript normalisation: [0 <= i < n] is itself,
    [-n <= i < 0] counts from the end, anything else is out of range. *)
Definition norm_index (n : nat) (i : Z) : option nat :=
  if bool_decide (0 ≤ i < Z.of_nat n)%Z then Some (Z.to_nat i)
  else if bool_decide (- Z.of_nat n ≤ i < 0)%Z then Some (Z.to_nat (i + Z.of_nat n))
  else None.

(** [l[i]] *)
Definition getitem (l : list Z) (i : Z) : outcome Z :=
  match norm_index (length l) i with
  | Some k => match l !! k with Some x => Ret x | None => Raise IndexError end
  | None => Raise IndexError
  end.

(** [l[i] = v] *)
Definition setitem (l : list Z) (i : Z) (v : Z) : outcome (list Z) :=
  match norm_index (length l) i with
  | Some k => Ret (<[k := v]> l)
  | None => Raise IndexError
  end.

(** [a % b] on integers (result has the sign of the divisor). *)
Definition mod_ (a b : Z) : outcome Z :=
  if bool_decide (b = 0%Z) then Raise ZeroDivisionError else Ret (a `mod` b)%Z.

(** Truth value of an integer. *)
Definition truthy (b : Z) : bool := negb (bool_decide (b = 0%Z)).

(** The values [dist] and [max_dist] range over in [optimal]: Python
    integers and [float('inf')]. *)
Inductive num := Int (z : Z) | Inf.

(** [a > b] *)
Definition gt (a b : num) : bool :=
  match a, b with
  | Int x, Int y => bool_decide (y < x)%Z
  | Inf, Int _ => true
  | Int _, Inf => false
  | Inf, Inf => false
  end.

End Py.
Import Py.

(** ** Data model *)

(** One dictionary appended to [steps]. *)
Record step := Step {
  page : Z;
  frames_before : list Z;
  frames_after : list Z;
  page_fault : bool
}.

(** The dictionary every policy returns. *)
Record result := Result {
  faults : Z;
  steps : list step
}.

(** ** The policies *)

(** Local variables [frames, page_faults, steps] of [fifo], [lru] and
    [optimal]. *)
Definition locals : Type := list Z * Z * list step.

(** Local variables [frames, ref_bits, pointer, page_faults, steps] of
    [second_chance] and [clock]. *)
Definition locals_rb : Type := list Z * list Z * Z * Z * list step.

(** Body of the [for] loop of [fifo] (algorithms.py:13-31). *)
Definition fifo_body (frame_size : Z) (st : locals) (page : Z) : outcome locals :=
  let '(frames, page_faults, steps) := st in
  let current_state := frames in
  '(frames, page_faults, fault) ←
    (if negb (contains page frames) then
       frames ←
         (if bool_decide (Z.of_nat (length frames) < frame_size)%Z then
            Ret (frames ++ [page])
          else
            '(_, frames) ← pop0 frames;
            Ret (frames ++ [page]));
       Ret (frames, (page_faults + 1)%Z, true)
     else Ret (frames, page_faults, false));
  Ret (frames, page_faults, steps ++ [Step page current_state frames fault]).

(** [fifo(reference_string, frame_size)] (algorithms.py:1-33). *)
Definition fifo (reference_string : list Z) (frame_size : Z) : outcome result :=
  '(_, page_faults, steps) ←
    for_each (fifo_body frame_size) ([], 0%Z, []) reference_string;
  Ret (Result page_faults steps).

(** Body of the [for] loop of [lru] (algorithms.py:47-68). *)
Definition lru_body (frame_size : Z) (st : locals) (page : Z) : outcome locals :=
  let '(frames, page_faults, steps) := st in
  let current_state := frames in
  '(frames, page_faults, fault) ←
    (if negb (contains page frames) then
       frames ←
         (if bool_decide (Z.of_nat (length frames) < frame_size)%Z then
            Ret (frames ++ [page])
          else
            '(_, frames) ← pop0 frames;
            Ret (frames ++ [page]));
       Ret (frames, (page_faults + 1)%Z, true)
     else
       frames ← remove frames page;
       Ret (frames ++ [page], page_faults, false));
  Ret (frames, page_faults, steps ++ [Step page current_state frames fault]).

(** [lru(reference_string, frame_size)] (algorithms.py:35-70). *)
Definition lru (reference_string : list Z) (frame_size : Z) : outcome result :=
  '(_, page_faults, steps) ←
    for_each (lru_body frame_size) ([], 0%Z, []) reference_string;
  Ret (Result page_faults steps).

(** Body of the inner loop of [optimal] (algorithms.py:96-103); the state
    is [(replace, max_dist)]. *)
Definition optimal_scan_body (future : list Z) (st : option Z * num) (frame : Z)
  : outcome (option Z * num) :=
  let '(replace, max_dist) := st in
  dist ← except_ValueError (d ← index future frame; Ret (Int (Z.of_nat d))) (Ret Inf);
  if gt dist max_dist then Ret (Some frame, dist) else Ret (replace, max_dist).

(** Body of the outer loop of [optimal] (algorithms.py:84-112). *)
Definition optimal_body (reference_string : list Z) (frame_size : Z)
    (st : locals) (ip : nat * Z) : outcome locals :=
  let '(frames, page_faults, steps) := st in
  let '(i, page) := ip in
  let current_state := frames in
  '(frames, page_faults, fault) ←
    (if negb (contains page frames) then
       frames ←
         (if bool_decide (Z.of_nat (length frames) < frame_size)%Z then
            Ret (frames ++ [page])
          else
            let future := drop (i + 1) reference_string in
            '(replace, _) ← for_each (optimal_scan_body future) (None, Int (-1)) frames;
            k ← index_opt frames replace;
            setitem frames (Z.of_nat k) page);
       Ret (frames, (page_faults + 1)%Z, true)
     else Ret (frames, page_faults, false));
  Ret (frames, page_faults, steps ++ [Step page current_state frames fault]).

(** [optimal(reference_string, frame_size)] (algorithms.py:72-114). *)
Definition optimal (reference_string : list Z) (frame_size : Z) : outcome result :=
  '(_, page_faults, steps) ←
    for_each (optimal_body reference_string frame_size) ([], 0%Z, [])
             (enumerate reference_string);
  Ret (Result page_faults steps).

(** The [while ref_bits[pointer]: ...] loop of [second_chance] and
    [clock] (algorithms.py:140-142 and 183-185): [modulus] is the
    divisor of the pointer update, [frame_size] in [second_chance] and
    [len(frames)] in [clock] ([frames] is not assigned inside the loop).
    [fuel] bounds the number of tests of the loop condition. *)
Fixpoint hand_sweep (fuel : nat) (modulus : Z) (ref_bits : list Z) (pointer : Z)
  : outcome (list Z * Z) :=
  match fuel with
  | O => OutOfFuel
  | S fuel' =>
    b ← getitem ref_bits pointer;
    if truthy b then
      ref_bits ← setitem ref_bits pointer 0%Z;
      pointer ← mod_ (pointer + 1)%Z modulus;
      hand_sweep fuel' modulus ref_bits pointer
    else Ret (ref_bits, pointer)
  end.

(** Fault branch with no free frame, shared shape of algorithms.py:140-145
    and 183-188.  Every pass through the loop body clears one set bit, so
    [S (length ref_bits)] tests of the condition are always enough (see
    [hand_sweep_fuel]). *)
Definition replace_at_hand (modulus : Z) (frames ref_bits : list Z) (pointer page : Z)
  : outcome (list Z * list Z * Z) :=
  '(ref_bits, pointer) ← hand_sweep (S (length ref_bits)) modulus ref_bits pointer;
  frames ← setitem frames pointer page;
  ref_bits ← setitem ref_bits pointer 1%Z;
  pointer ← mod_ (pointer + 1)%Z modulus;
  Ret (frames, ref_bits, pointer).

(** Body of the [for] loop of [second_chance] (algorithms.py:130-155). *)
Definition second_chance_body (frame_size : Z) (st : locals_rb) (page : Z)
  : outcome locals_rb :=
  let '(frames, ref_bits, pointer, page_faults, steps) := st in
  let current_state := frames in
  '(frames, ref_bits, pointer, page_faults, fault) ←
    (if negb (contains page frames) then
       '(frames, ref_bits, pointer) ←
         (if bool_decide (Z.of_nat (length frames) < frame_size)%Z then
            Ret (frames ++ [page], ref_bits ++ [1%Z], pointer)
          else replace_at_hand frame_size frames ref_bits pointer page);
       Ret (frames, ref_bits, pointer, (page_faults + 1)%Z, true)
     else
       k ← index frames page;
       ref_bits ← setitem ref_bits (Z.of_nat k) 1%Z;
       Ret (frames, ref_bits, pointer, page_faults, false));
  Ret (frames, ref_bits, pointer, page_faults,
       steps ++ [Step page current_state frames fault]).

(** [second_chance(reference_string, frame_size)] (algorithms.py:116-157). *)
Definition second_chance (reference_string : list Z) (frame_size : Z)
  : outcome result :=
  '(_, _, _, page_faults, steps) ←
    for_each (second_chance_body frame_size) ([], [], 0%Z, 0%Z, []) reference_string;
  Ret (Result page_faults steps).

(** Body of the [for] loop of [clock] (algorithms.py:173-198). *)
Definition clock_body (frame_size : Z) (st : locals_rb) (page : Z)
  : outcome locals_rb :=
  let '(frames, ref_bits, pointer, page_faults, steps) := st in
  let current_state := frames in
  '(frames, ref_bits, pointer, page_faults, fault) ←
    (if negb (contains page frames) then
       '(frames, ref_bits, pointer) ←
         (if bool_decide (Z.of_nat (length frames) < frame_size)%Z then
            Ret (frames ++ [page], ref_bits ++ [1%Z], pointer)
          else replace_at_hand (Z.of_nat (length frames)) frames ref_bits pointer page);
       Ret (frames, ref_bits, pointer, (page_faults + 1)%Z, true)
     else
       k ← index frames page;
       ref_bits ← setitem ref_bits (Z.of_nat k) 1%Z;
       Ret (frames, ref_bits, pointer, page_faults, false));
  Ret (frames, ref_bits, pointer, page_faults,
       steps ++ [Step page current_state frames fault]).

(** [clock(reference_string, frame_size)] (algorithms.py:159-200). *)
Definition clock (reference_string : list Z) (frame_size : Z) : outcome result :=
  '(_, _, _, page_faults, steps) ←
    for_each (clock_body frame_size) ([], [], 0%Z, 0%Z, []) reference_string;
  Ret (Result page_faults steps).

(** The registry [ALGORITHMS], in registration order. *)
Inductive policy := FIFO | LRU | Optimal | SecondChance | Clock.

Definition ALGORITHMS (p : policy) : list Z → Z → outcome result :=
  match p with
  | FIFO => fifo
  | LRU => lru
  | Optimal => optimal
  | SecondChance => second_chance
  | Clock => clock
  end.

(** [ALGORITHMS.items()]: the registry with its string keys, in
    insertion order (algorithms.py:203-209). *)
Definition policy_name (p : policy) : string :=
  match p with
  | FIFO => "FIFO"
  | LRU => "LRU"
  | Optimal => "Optimal"
  | SecondChance => "Second Chance"
  | Clock => "Clock"
  end.

Definition ALGORITHMS_items : list (string * (list Z → Z → outcome result)) :=
  [("FIFO", fifo); ("LRU", lru); ("Optimal", optimal);
   ("Second Chance", second_chance); ("Clock", clock)].

(** ** The caller: the simulator window of [gui.py]

    Only the data the window computes with is modelled: [self.results],
    [self.current_step], the number of labels of each grid in
    [self.algo_grids], and what is written on the labels.  Colours,
    fonts, the HTML report, the progress bar and the chart do not feed
    back into that data and are left out. *)

Module Gui.

(** What can end a slot of the window early: an exception raised by a
    policy or by a list or integer operation, a dictionary key that is
    missing, or a [while] loop that does not finish. *)
Inductive crash := Builtin (e : exn) | KeyError | Fuel.

Inductive run (A : Type) :=
| Done (a : A)
| Crash (c : crash).
Global Arguments Done {A} a.
Global Arguments Crash {A} c.

Global Instance run_ret : MRet run := λ A a, Done a.
Global Instance run_bind : MBind run := λ A B f m,
  match m with
  | Done a => f a
  | Crash c => Crash c
  end.

Definition lift {A} (o : outcome A) : run A :=
  match o with
  | Ret a => Done a
  | Raise e => Crash (Builtin e)
  | OutOfFuel => Crash Fuel
  end.

(** [for x in l], collecting what each pass produces. *)
Fixpoint each {A B} (f : A → run B) (l : list A) : run (list B) :=
  match l with
  | [] => Done []
  | x :: l' => y ← f x; ys ← each f l'; Done (y :: ys)
  end.

(** A Python dictionary with string keys, in insertion order. *)
Definition dict (V : Type) : Type := list (string * V).

(** [d[k] = v]: a present key keeps its place, a new key goes last. *)
Fixpoint dict_set {V} (d : dict V) (k : string) (v : V) : dict V :=
  match d with
  | [] => [(k, v)]
  | (k', v') :: d' =>
    if decide (k' = k) then (k, v) :: d' else (k', v') :: dict_set d' k v
  end.

(** [d[k]], [None] standing for KeyError; also decides [k in d]. *)
Fixpoint dict_get {V} (d : dict V) (k : string) : option V :=
  match d with
  | [] => None
  | (k', v') :: d' => if decide (k' = k) then Some v' else dict_get d' k
  end.

(** [l[i]] on any list, with Python's negative subscripts. *)
Definition item {A} (l : list A) (i : Z) : run A :=
  match norm_index (length l) i with
  | Some k => match l !! k with Some x => Done x | None => Crash (Builtin IndexError) end
  | None => Crash (Builtin IndexError)
  end.

(** The text of the frame-size field as [run_simulation] reads it
    (gui.py:364): [isdigit()] false; decimal digits that [int] reads as
    [n]; or a text for which [isdigit()] holds and [int] raises
    ValueError (digits that are not decimal, such as a superscript two). *)
Inductive frame_text :=
| NotDigits
| Decimal (n : N)
| OtherDigits.

(** [int(text) if text.isdigit() else 3] *)
Definition read_frame_size (t : frame_text) : run Z :=
  match t with
  | NotDigits => Done 3%Z
  | Decimal n => Done (Z.of_N n)
  | OtherDigits => Crash (Builtin ValueError)
  end.

(** The fields of the window the slots compute with; [algo_grids] maps
    an algorithm to the number of labels of its grid. *)
Record window := Window {
  results : dict result;
  current_step : Z;
  algo_grids : dict nat
}.

(** What a label shows: a page, highlighted or not, or a dash. *)
Inductive cell := Shown (x : Z) (highlight : bool) | Dash.

(** What [update_visualization] writes: the step label (step number and
    page) and the cells of each grid. *)
Record screen := Screen {
  step_label : Z * Z;
  grids : list (string * list cell)
}.

(** How a slot ends when it does not crash. *)
Inductive report :=
| NoInput                  (* [validate_input] returned None *)
| BadFrameSize             (* "Frame size must be between 1 and 10" *)
| Completed (most_efficient : option string) (shown : option screen).

(** [setup_visualization(frame_size)] (gui.py:428-467): the old grids
    are dropped; unless [frame_size] is 0, every algorithm of
    [self.results] gets a grid of [range(frame_size)] labels. *)
Definition setup_visualization (frame_size : Z) (w : window) : window :=
  let grids :=
    if bool_decide (frame_size = 0%Z) then []
    else foldl (λ g kr, dict_set g kr.1 (Z.to_nat frame_size)) [] (results w) in
  Window (results w) (current_step w) grids.

(** [min(len(result["steps"]) for result in self.results.values())];
    [min] of nothing raises ValueError. *)
Definition min_steps (rs : dict result) : run Z :=
  match rs with
  | [] => Crash (Builtin ValueError)
  | (_, r) :: rest =>
    Done (foldl (λ m kr, Z.min m (Z.of_nat (length (steps kr.2))))
                (Z.of_nat (length (steps r))) rest)
  end.

(** The inner loop of [update_visualization] (gui.py:486-492) over the
    [labels] labels of one grid. *)
Definition paint (labels : nat) (frames_after : list Z) (page_fault : bool)
  : list cell :=
  (λ i, match frames_after !! i with
        | Some x =>
          Shown x (page_fault &&
                   bool_decide (Z.of_nat i = Z.of_nat (length frames_after) - 1)%Z)
        | None => Dash
        end) <$> seq 0 labels.

(** [update_visualization()] (gui.py:469-492). *)
Definition update_visualization (w : window) : run (window * option screen) :=
  match results w with
  | [] => Done (w, None)
  | (_, first) :: _ =>
    max_steps ← min_steps (results w);
    let current_step :=
      if bool_decide (max_steps ≤ current_step w)%Z then (max_steps - 1)%Z
      else if bool_decide (current_step w < 0)%Z then 0%Z
      else current_step w in
    let w := Window (results w) current_step (algo_grids w) in
    labelled ← item (steps first) current_step;
    gs ← each (λ kr : string * result,
                 step ← item (steps kr.2) current_step;
                 labels ← (match dict_get (algo_grids w) kr.1 with
                           | Some n => Done n
                           | None => Crash KeyError
                           end);
                 Done (kr.1, paint labels (frames_after step) (page_fault step)))
              (results w);
    Done (w, Some (Screen ((current_step + 1)%Z, page labelled) gs))
  end.

(** [next_step()] (gui.py:494-498). *)
Definition next_step (w : window) : run (window * option screen) :=
  match results w with
  | [] => Done (w, None)
  | _ :: _ =>
    max_steps ← min_steps (results w);
    if bool_decide (current_step w < max_steps - 1)%Z then
      update_visualization
        (Window (results w) (current_step w + 1)%Z (algo_grids w))
    else Done (w, None)
  end.

(** [prev_step()] (gui.py:500-504). *)
Definition prev_step (w : window) : run (window * option screen) :=
  match results w with
  | [] => Done (w, None)
  | _ :: _ =>
    if bool_decide (0 < current_step w)%Z then
      update_visualization
        (Window (results w) (current_step w - 1)%Z (algo_grids w))
    else Done (w, None)
  end.

(** [min(self.results, key=lambda x: self.results[x]["faults"]) if
    self.results else None] (gui.py:416): the first key, in insertion
    order, whose fault count no other key undercuts. *)
Definition most_efficient (rs : dict result) : option string :=
  match rs with
  | [] => None
  | kr :: rest =>
    Some (foldl (λ best kr : string * result,
                   if bool_decide (faults kr.2 < faults best.2)%Z then kr else best)
                kr rest).1
  end.

(** The policies [run_simulation] runs (gui.py:375-393), from an empty
    [self.results]. *)
Definition run_selected (ref_string : list Z) (frame_size : Z)
    (selected_algo : string) : run (dict result) :=
  if decide (selected_algo = "All Algorithms") then
    foldl (λ acc (kf : string * (list Z → Z → outcome result)),
             rs ← acc;
             r ← lift (kf.2 ref_string frame_size);
             Done (dict_set rs kf.1 r))
          (Done []) ALGORITHMS_items
  else
    match dict_get ALGORITHMS_items selected_algo with
    | Some algo_func =>
      r ← lift (algo_func ref_string frame_size);
      Done (dict_set [] selected_algo r)
    | None => Done []
    end.

(** [run_simulation()] (gui.py:358-426).  [validated] is what
    [validate_input()] returned, [frame_field] the text of the
    frame-size field, [selected_algo] the current text of the
    drop-down. *)
Definition run_simulation (w : window) (validated : option (list Z))
    (frame_field : frame_text) (selected_algo : string)
  : run (window * report) :=
  match validated with
  | None => Done (w, NoInput)
  | Some ref_string =>
    frame_size ← read_frame_size frame_field;
    if bool_decide (frame_size ≤ 0)%Z || bool_decide (10 < frame_size)%Z then
      Done (w, BadFrameSize)
    else
      rs ← run_selected ref_string frame_size selected_algo;
      let w := Window rs 0%Z (algo_grids w) in
      let best := most_efficient rs in
      let w := setup_visualization frame_size w in
      '(w, shown) ← update_visualization w;
      Done (w, Completed best shown)
  end.

(** The entries of the drop-down (gui.py:96-98). *)
Definition dropdown : list string :=
  ["All Algorithms"; "FIFO"; "LRU"; "Optimal"; "Second Chance"; "Clock"].

End Gui.

(** The reference string of the module's self-test (algorithms.py:213). *)
Definition ref_string : list Z := [1; 2; 3; 4; 1; 2; 5; 1; 2; 3; 4; 5]%Z.

(** ** Specification vocabulary *)

(** Number of step records whose fault flag is set. *)
Definition fault_count (tr : list step) : nat :=
  length (filter (λ s, page_fault s = true) tr).

(** Distance to the next use of [x] in [future]; [None] is "never again",
    the infinite distance. *)
Definition next_use (future : list Z) (x : Z) : option nat := find_index x future.

Definition dist_le (a b : option nat) : Prop :=
  match a, b with
  | _, None => True
  | None, Some _ => False
  | Some i, Some j => i ≤ j
  end.

Definition dist_lt (a b : option nat) : Prop :=
  match a, b with
  | Some i, Some j => i < j
  | Some _, None => True
  | None, _ => False
  end.

(** Slot [k] of [fs] holds a page whose next use in [future] is furthest
    away, and it is the first such slot in frame order. *)
Definition furthest (future fs : list Z) (k : nat) : Prop :=
  ∃ z, fs !! k = Some z ∧
    (∀ j y, fs !! j = Some y → dist_le (next_use future y) (next_use future z)) ∧
    (∀ j y, j < k → fs !! j = Some y → dist_lt (next_use future y) (next_use future z)).

(** What one reference can do to the frame list. *)
Inductive kind :=
| Hit                (* resident, frames untouched *)
| Touch              (* resident, moved to the back *)
| Fill               (* fault with a free frame: appended *)
| Replace (k : nat)  (* fault, frames full: slot [k] overwritten in place *)
| Shift.             (* fault, frames full: front dropped, page appended *)

Inductive move (cap : Z) (p : Z) (fs : list Z) : kind → list Z → bool → Prop :=
| move_hit :
    p ∈ fs → move cap p fs Hit fs false
| move_touch fs0 :
    p ∈ fs → remove_first p fs = Some fs0 → move cap p fs Touch (fs0 ++ [p]) false
| move_fill :
    p ∉ fs → (Z.of_nat (length fs) < cap)%Z → move cap p fs Fill (fs ++ [p]) true
| move_replace k :
    p ∉ fs → Z.of_nat (length fs) = cap → k < length fs →
    move cap p fs (Replace k) (<[k := p]> fs) true
| move_shift z rest :
    p ∉ fs → Z.of_nat (length fs) = cap → fs = z :: rest →
    move cap p fs Shift (rest ++ [p]) true.

(** Which moves a policy makes; only [Optimal] looks at the future. *)
Definition uses (P : policy) (future fs : list Z) (a : kind) : Prop :=
  match P, a with
  | FIFO, (Hit | Fill | Shift) => True
  | LRU, (Touch | Fill | Shift) => True
  | Optimal, (Hit | Fill) => True
  | Optimal, Replace k => furthest future fs k
  | (SecondChance | Clock), (Hit | Fill | Replace _) => True
  | _, _ => False
  end.

(** [chain P cap fs σ tr fs']: replaying [σ] from frames [fs] with the
    moves of [P] yields the step records [tr] and ends in [fs']. *)
Inductive chain (P : policy) (cap : Z) : list Z → list Z → list step → list Z → Prop :=
| chain_nil fs : chain P cap fs [] [] fs
| chain_cons fs p a fs' b σ tr fs'' :
    move cap p fs a fs' b →
    uses P σ fs a →
    chain P cap fs' σ tr fs'' →
    chain P cap fs (p :: σ) (Step p fs fs' b :: tr) fs''.

(** The hand of Second-Chance in the words of the design: while the page
    under the hand has its reference bit set, clear the bit and advance
    the hand, wrapping modulo [cap]; stop on the first clear bit. *)
Inductive sweeps (cap : Z) : list Z → Z → list Z → Z → Prop :=
| sweeps_found bits hand :
    bits !! Z.to_nat hand = Some 0%Z →
    sweeps cap bits hand bits hand
| sweeps_skip bits hand bits' hand' :
    bits !! Z.to_nat hand = Some 1%Z →
    sweeps cap (<[Z.to_nat hand := 0%Z]> bits) ((hand + 1) `mod` cap)%Z bits' hand' →
    sweeps cap bits hand bits' hand'.

(** Loop invariant of [second_chance] and [clock]. *)
Definition rb_inv (cap : Z) (st : locals_rb) : Prop :=
  let '(frames, ref_bits, pointer, _, _) := st in
  NoDup frames ∧ (Z.of_nat (length frames) ≤ cap)%Z ∧
  length ref_bits = length frames ∧
  Forall (λ b, b = 0%Z ∨ b = 1%Z) ref_bits ∧
  (0 ≤ pointer < cap)%Z.

(** [x] does not occur among the next [t] references. *)
Definition far (σ : list Z) (t : nat) (x : Z) : Prop := x ∉ take t σ.

Global Instance far_dec σ t x : Decision (far σ t x).
Proof. unfold far. apply _. Defined.

(** Number of resident pages not needed within the next [t] references. *)
Definition cnt_far (σ : list Z) (t : nat) (fs : list Z) : nat :=
  length (filter (far σ t) fs).

(** [dist] as computed by the inner loop of [optimal] from a next use. *)
Definition dist_of (o : option nat) : num :=
  match o with
  | Some d => Int (Z.of_nat d)
  | None => Inf
  end.

(** Invariant of the inner loop of [optimal] after the frames [seen]. *)
Definition scan_inv (future seen : list Z) (st : option Z * num) : Prop :=
  match st.1 with
  | None => seen = [] ∧ st.2 = Int (-1)
  | Some z =>
    st.2 = dist_of (next_use future z) ∧
    ∃ k, seen !! k = Some z ∧
      (∀ j y, seen !! j = Some y → dist_le (next_use future y) (next_use future z)) ∧
      (∀ j y, j < k → seen !! j = Some y → dist_lt (next_use future y) (next_use future z))
  end.

(** Invariant of the outer loop of [optimal]: [items] is what is left of
    [enumerate(reference_string)]. *)
Definition optimal_inv (reference_string : list Z) (cap : Z)
    (items : list (nat * Z)) (st : locals) : Prop :=
  NoDup st.1.1 ∧ (Z.of_nat (length st.1.1) ≤ cap)%Z ∧
  ∃ pre, reference_string = pre ++ (snd <$> items) ∧
         items = enumerate_from (length pre) (snd <$> items).

(** Number of reference bits that are set. *)
Definition ones (bits : list Z) : nat := length (filter (λ b, b ≠ 0%Z) bits).

(** Indicator of a decidable proposition. *)
Definition ind (P : Prop) `{Decision P} : nat := if decide P then 1 else 0.

(** How [optimal]'s frames [M] compare with another policy's frames [A]
    before replaying [σ]: same occupancy, same pages while a frame is
    free, and, up to [d] exceptions, [M]'s pages are needed no later than
    [A]'s. *)
Definition ahead (cap : Z) (σ M A : list Z) (d : nat) : Prop :=
  NoDup M ∧ NoDup A ∧ length M = length A ∧
  (Z.of_nat (length M) ≤ cap)%Z ∧
  ((Z.of_nat (length M) < cap)%Z → M ≡ₚ A) ∧
  ∀ t, cnt_far σ t M ≤ cnt_far σ t A + d.

(** The pages of [pre], each once, at the place of its last reference:
    least recently used first, most recently used last. *)
Definition recency (pre : list Z) : list Z := remove_dups pre.

(** The last [c] entries of [l] (all of [l] if it is shorter). *)
Definition last_n (c : nat) (l : list Z) : list Z := drop (length l - c) l.

(** The [cap] most recently used pages of [pre], least recent first. *)
Definition recent (cap : Z) (pre : list Z) : list Z :=
  last_n (Z.to_nat cap) (recency pre).

(** Number of distinct pages of [l]. *)
Definition distinct (l : list Z) : nat := length (remove_dups l).

(** What the frames [fs] have to do with the references [pre] made so
    far, in any policy: only referenced pages are resident, all of them
    while a frame is free. *)
Definition resident_of (cap : Z) (pre fs : list Z) : Prop :=
  NoDup fs ∧ (Z.of_nat (length fs) ≤ cap)%Z ∧
  (∀ x, x ∈ fs → x ∈ pre) ∧
  ((Z.of_nat (length fs) < cap)%Z → ∀ x, x ∈ pre → x ∈ fs).

(** The pages of the step records that faulted, in order. *)
Definition loaded (tr : list step) : list Z :=
  page <$> filter (λ s, page_fault s = true) tr.

(** The window shows a finished simulation of [ref_string] with
    [frame_size] frames: [self.results] holds results of registered
    policies on that input, each of them has a grid of [frame_size]
    labels, and [self.current_step] is a position of the reference
    string. *)
Definition shows (ref_string : list Z) (frame_size : Z) (w : Gui.window) : Prop :=
  Gui.results w ≠ [] ∧
  (∀ k r, (k, r) ∈ Gui.results w →
     Gui.dict_get (Gui.algo_grids w) k = Some (Z.to_nat frame_size) ∧
     ∃ P, k = policy_name P ∧ ALGORITHMS P ref_string frame_size = Ret r) ∧
  (0 ≤ Gui.current_step w < Z.of_nat (length ref_string))%Z.

(** The pages written on the labels of a grid, top to bottom. *)
Definition pages_shown (cells : list Gui.cell) : list Z :=
  omap (λ c, match c with Gui.Shown x _ => Some x | Gui.Dash => None end) cells.

(** A screen shows step [Gui.current_step w] of every result of [w]:
    one grid per result, in order, each with [frame_size] labels that
    carry the pages of that step's [frames_after], followed by dashes. *)
Definition screen_of (frame_size : Z) (w : Gui.window) (scr : Gui.screen) : Prop :=
  (Gui.step_label scr).1 = (Gui.current_step w + 1)%Z ∧
  Forall2 (λ (kr : string * result) (g : string * list Gui.cell),
             g.1 = kr.1 ∧
             ∃ s, steps kr.2 !! Z.to_nat (Gui.current_step w) = Some s ∧
                  length g.2 = Z.to_nat frame_size ∧
                  pages_shown g.2 = frames_after s)
          (Gui.results w) (Gui.grids scr).

(** The navigation buttons. *)
Inductive press := Next | Prev.

(** A series of clicks on the navigation buttons; the screen is the one
    painted by the last click, if it painted. *)
Fixpoint navigate (w : Gui.window) (clicks : list press)
  : Gui.run (Gui.window * option Gui.screen) :=
  match clicks with
  | [] => Gui.Done (w, None)
  | c :: clicks' =>
    '(w', shown) ← (match c with Next => Gui.next_step w | Prev => Gui.prev_step w end);
    match clicks' with
    | [] => Gui.Done (w', shown)
    | _ :: _ => navigate w' clicks'
    end
  end.

(** ** Facts about the Python primitives *)

Section primitives.
Implicit Types (l : list Z) (x y : Z) (i k : nat).

Lemma contains_true x l : contains x l = true ↔ x ∈ l.
Proof. unfold contains. apply bool_decide_eq_true. Qed.

Lemma contains_false x l : contains x l = false ↔ x ∉ l.
Proof. unfold contains. apply bool_decide_eq_false. Qed.

Lemma find_index_None x l : find_index x l = None ↔ x ∉ l.
Proof.
  induction l as [|y l IH]; simpl.
  - split; [intros _; apply not_elem_of_nil | done].
  - case_bool_decide as Hy.
    + subst. split; [done | intros []; left].
    + rewrite fmap_None, IH, not_elem_of_cons.
      split; [intros ?; split; [congruence | done] | intros [_ ?]; done].
Qed.

Lemma find_index_Some x l i :
  find_index x l = Some i ↔ l !! i = Some x ∧ x ∉ take i l.
Proof.
  revert i. induction l as [|y l IH]; intros i; simpl.
  - split; [done | intros [? _]; done].
  - case_bool_decide as Hy.
    + subst. split.
      * intros [= <-]. split; [done | apply not_elem_of_nil].
      * destruct i as [|i]; [done|]. simpl. intros [_ []]. left.
    + rewrite fmap_Some. split.
      * intros (j & Hj & ->). apply IH in Hj as [? ?]. simpl.
        split; [done|]. rewrite not_elem_of_cons. done.
      * destruct i as [|i]; simpl.
        { intros [[= ?] _]. done. }
        rewrite not_elem_of_cons. intros [? [_ ?]].
        exists i. split; [|done]. apply IH. done.
Qed.

Lemma find_index_is_Some x l : x ∈ l → ∃ i, find_index x l = Some i.
Proof.
  intros Hx. destruct (find_index x l) as [i|] eqn:E; [eauto|].
  apply find_index_None in E. done.
Qed.

Lemma find_index_lookup x l i : find_index x l = Some i → l !! i = Some x.
Proof. intros H. apply find_index_Some in H. tauto. Qed.

Lemma find_index_NoDup x l i : NoDup l → l !! i = Some x → find_index x l = Some i.
Proof.
  intros Hnd Hi. destruct (find_index_is_Some x l) as [j Hj].
  { eapply list_elem_of_lookup_2; eauto. }
  apply find_index_lookup in Hj as Hj'.
  rewrite Hj. f_equal. eapply NoDup_lookup; eauto.
Qed.

Lemma remove_first_Some x l : x ∈ l → ∃ l', remove_first x l = Some l' ∧ l ≡ₚ x :: l'.
Proof.
  induction l as [|y l IH]; [intros H; by apply elem_of_nil in H|].
  intros Hx. simpl. case_bool_decide as Hy.
  - subst. eauto.
  - apply elem_of_cons in Hx as [->|Hx]; [done|].
    destruct (IH Hx) as (l' & -> & Hp). exists (y :: l'). split; [done|].
    rewrite Hp. apply Permutation_swap.
Qed.

Lemma remove_first_perm x l l' : remove_first x l = Some l' → l ≡ₚ x :: l'.
Proof.
  intros H. destruct (decide (x ∈ l)) as [Hx|Hx].
  - destruct (remove_first_Some x l Hx) as (l'' & E & Hp). congruence.
  - exfalso. revert l' H. induction l as [|y l IH]; [done|]. simpl. intros l'.
    apply not_elem_of_cons in Hx as [? ?]. case_bool_decide; [congruence|].
    rewrite fmap_Some. intros (l0 & ? & _). eauto.
Qed.

Lemma norm_index_nat n k : k < n → norm_index n (Z.of_nat k) = Some k.
Proof.
  intros Hk. unfold norm_index. rewrite bool_decide_eq_true_2 by lia.
  by rewrite Nat2Z.id.
Qed.

Lemma norm_index_in_range n (i : Z) : (0 ≤ i < Z.of_nat n)%Z → norm_index n i = Some (Z.to_nat i).
Proof. intros Hi. unfold norm_index. by rewrite bool_decide_eq_true_2. Qed.

Lemma getitem_in_range l (i : Z) x :
  (0 ≤ i)%Z → l !! Z.to_nat i = Some x → getitem l i = Ret x.
Proof.
  intros Hi Hx. unfold getitem. apply lookup_lt_Some in Hx as Hlt.
  rewrite norm_index_in_range by lia. by rewrite Hx.
Qed.

Lemma setitem_in_range l (i : Z) x :
  (0 ≤ i < Z.of_nat (length l))%Z → setitem l i x = Ret (<[Z.to_nat i := x]> l).
Proof. intros Hi. unfold setitem. by rewrite norm_index_in_range. Qed.

Lemma setitem_nat l k x : k < length l → setitem l (Z.of_nat k) x = Ret (<[k := x]> l).
Proof. intros Hk. unfold setitem. by rewrite norm_index_nat. Qed.

Lemma delete_insert_same l k x : delete k (<[k := x]> l) = delete k l.
Proof. revert k. induction l as [|y l IH]; intros [|k]; simpl; f_equal; auto. Qed.

Lemma mod_pos (a b : Z) : (0 < b)%Z → mod_ a b = Ret (a `mod` b)%Z.
Proof. intros Hb. unfold mod_. rewrite bool_decide_eq_false_2 by lia. done. Qed.

End primitives.

(** ** Moves keep the frame list well formed *)

Section moves.
Context (cap : Z).
Implicit Types (fs : list Z) (p : Z) (a : kind) (b : bool).

Lemma move_perm p fs a fs' b :
  move cap p fs a fs' b →
  match a with
  | Hit | Touch => fs' ≡ₚ fs
  | Fill => fs' ≡ₚ p :: fs
  | Replace _ | Shift => ∃ z rest, fs ≡ₚ z :: rest ∧ fs' ≡ₚ p :: rest
  end.
Proof.
  intros [Hin|fs0 Hin Hrm|Hni Hlt|k Hni Hfull Hk|z rest Hni Hfull ->].
  - done.
  - apply remove_first_perm in Hrm. rewrite Hrm.
    by rewrite <-Permutation_cons_append.
  - by rewrite <-Permutation_cons_append.
  - destruct (lookup_lt_is_Some_2 fs k Hk) as [z Hz].
    exists z, (delete k fs). split; [by apply delete_Permutation|].
    rewrite (delete_Permutation (<[k:=p]> fs) k p)
      by (by apply list_lookup_insert_eq).
    by rewrite delete_insert_same.
  - exists z, rest. split; [done|]. by rewrite <-Permutation_cons_append.
Qed.

Lemma move_NoDup p fs a fs' b : move cap p fs a fs' b → NoDup fs → NoDup fs'.
Proof.
  intros Hm Hnd. pose proof (move_perm _ _ _ _ _ Hm) as Hp.
  destruct Hm as [Hin|fs0 Hin Hrm|Hni Hlt|k Hni Hfull Hk|z rest Hni Hfull ->].
  - done.
  - by rewrite Hp.
  - rewrite Hp. by apply NoDup_cons_2.
  - destruct Hp as (z & rest & H1 & H2). rewrite H1 in Hnd, Hni. rewrite H2.
    apply NoDup_cons in Hnd as [_ Hnd]. apply not_elem_of_cons in Hni as [_ Hni].
    by apply NoDup_cons_2.
  - destruct Hp as (z' & rest' & H1 & H2). rewrite H1 in Hnd, Hni. rewrite H2.
    apply NoDup_cons in Hnd as [_ Hnd]. apply not_elem_of_cons in Hni as [_ Hni].
    by apply NoDup_cons_2.
Qed.

Lemma move_length p fs a fs' b :
  move cap p fs a fs' b →
  (Z.of_nat (length fs) ≤ cap)%Z → (Z.of_nat (length fs') ≤ cap)%Z.
Proof.
  intros [Hin|fs0 Hin Hrm|Hni Hlt|k Hni Hfull Hk|z rest Hni Hfull ->] Hle.
  - done.
  - apply remove_first_perm in Hrm. apply Permutation_length in Hrm.
    rewrite length_app. simpl in *. lia.
  - rewrite length_app. simpl. lia.
  - by rewrite length_insert.
  - rewrite length_app. simpl in *. lia.
Qed.

End moves.

(** ** From a loop body to a chain of moves *)

Section loop.
Context {S A : Type} (body : S → A → outcome S).
Context (pg : A → Z) (fr : S → list Z) (pf : S → Z) (st : S → list step).
Context (P : policy) (cap : Z) (Inv : list A → S → Prop).

Hypothesis body_spec : ∀ s x rest, Inv (x :: rest) s →
  ∃ s' a b, body s x = Ret s' ∧ Inv rest s' ∧
    move cap (pg x) (fr s) a (fr s') b ∧ uses P (pg <$> rest) (fr s) a ∧
    st s' = st s ++ [Step (pg x) (fr s) (fr s') b] ∧
    pf s' = (if b then pf s + 1 else pf s)%Z.

Lemma for_each_chain items s :
  Inv items s →
  ∃ s' tr, for_each body s items = Ret s' ∧ Inv [] s' ∧
    chain P cap (fr s) (pg <$> items) tr (fr s') ∧
    st s' = st s ++ tr ∧
    pf s' = (pf s + Z.of_nat (fault_count tr))%Z.
Proof using body_spec.
  revert s. induction items as [|x rest IH]; intros s HI.
  - exists s, []. simpl. repeat split; [done | constructor | | ].
    + by rewrite app_nil_r.
    + unfold fault_count. simpl. lia.
  - destruct (body_spec s x rest HI) as (s1 & a & b & Hb & HI1 & Hm & Hu & Hst & Hpf).
    destruct (IH s1 HI1) as (s' & tr & Hrun & HI' & Hch & Hst' & Hpf').
    exists s', (Step (pg x) (fr s) (fr s1) b :: tr). simpl. rewrite Hb. simpl.
    repeat split; [done | done | | | ].
    + econstructor; eauto.
    + rewrite Hst', Hst, <-app_assoc. done.
    + rewrite Hpf', Hpf. unfold fault_count. rewrite filter_cons. simpl.
      destruct b; simpl; lia.
Qed.

End loop.

(** ** The loop bodies *)

Section bodies.
Context (cap : Z) (Hcap : (1 ≤ cap)%Z).
Implicit Types (frames future : list Z) (page : Z) (steps : list step).

(** Both branches of a fault in [fifo] and [lru]. *)
Lemma queue_fault frames page :
  page ∉ frames → (Z.of_nat (length frames) ≤ cap)%Z →
  ∃ a fs',
    (if bool_decide (Z.of_nat (length frames) < cap)%Z
     then Ret (frames ++ [page])
     else '(_, frames) ← pop0 frames; Ret (frames ++ [page])) = Ret fs' ∧
    move cap page frames a fs' true ∧ (a = Fill ∨ a = Shift).
Proof using Hcap.
  intros Hni Hle. case_bool_decide as Hlt.
  - exists Fill, (frames ++ [page]). split; [done|]. split; [by constructor | by left].
  - destruct frames as [|z rest]; simpl in *; [lia|].
    exists Shift, (rest ++ [page]). split; [done|].
    split; [econstructor; eauto; simpl; lia | by right].
Qed.

Lemma fifo_body_spec future frames page_faults steps page :
  NoDup frames → (Z.of_nat (length frames) ≤ cap)%Z →
  ∃ a fs' (b : bool),
    fifo_body cap (frames, page_faults, steps) page
    = Ret (fs', (if b then page_faults + 1 else page_faults)%Z,
           steps ++ [Step page frames fs' b]) ∧
    move cap page frames a fs' b ∧ uses FIFO future frames a.
Proof using Hcap.
  intros Hnd Hle. unfold fifo_body.
  destruct (contains page frames) eqn:Hc; simpl.
  - apply contains_true in Hc. exists Hit, frames, false.
    split; [done|]. split; [by constructor | done].
  - apply contains_false in Hc.
    destruct (queue_fault frames page Hc Hle) as (a & fs' & -> & Hm & Ha).
    exists a, fs', true. simpl. split; [done|]. split; [done|].
    by destruct Ha as [-> | ->].
Qed.

Lemma lru_body_spec future frames page_faults steps page :
  NoDup frames → (Z.of_nat (length frames) ≤ cap)%Z →
  ∃ a fs' (b : bool),
    lru_body cap (frames, page_faults, steps) page
    = Ret (fs', (if b then page_faults + 1 else page_faults)%Z,
           steps ++ [Step page frames fs' b]) ∧
    move cap page frames a fs' b ∧ uses LRU future frames a.
Proof using Hcap.
  intros Hnd Hle. unfold lru_body.
  destruct (contains page frames) eqn:Hc; simpl.
  - apply contains_true in Hc.
    destruct (remove_first_Some page frames Hc) as (fs0 & Hrm & _).
    exists Touch, (fs0 ++ [page]), false. unfold remove. rewrite Hrm. simpl.
    split; [done|]. split; [by constructor | done].
  - apply contains_false in Hc.
    destruct (queue_fault frames page Hc Hle) as (a & fs' & -> & Hm & Ha).
    exists a, fs', true. simpl. split; [done|]. split; [done|].
    by destruct Ha as [-> | ->].
Qed.

End bodies.

(** ** The lookahead of [optimal] *)

Section lookahead.
Implicit Types (a b c : option nat) (future frames seen : list Z).

Lemma dist_le_refl a : dist_le a a.
Proof. destruct a; simpl; done. Qed.

Lemma dist_lt_le a b : dist_lt a b → dist_le a b.
Proof. destruct a, b; simpl; lia. Qed.

Lemma dist_le_lt_trans a b c : dist_le a b → dist_lt b c → dist_lt a c.
Proof. destruct a, b, c; simpl; lia. Qed.

Lemma gt_dist_true a b : gt (dist_of a) (dist_of b) = true → dist_lt b a.
Proof.
  destruct a, b; simpl; try done.
  intros H. apply bool_decide_eq_true in H. lia.
Qed.

Lemma gt_dist_false a b : gt (dist_of a) (dist_of b) = false → dist_le a b.
Proof.
  destruct a, b; simpl; try done.
  intros H. apply bool_decide_eq_false in H. lia.
Qed.

Lemma gt_dist_init a : gt (dist_of a) (Int (-1)) = true.
Proof. destruct a; simpl; [|done]. apply bool_decide_eq_true. lia. Qed.

Lemma scan_dist future frame :
  except_ValueError (d ← index future frame; Ret (Int (Z.of_nat d))) (Ret Inf)
  = Ret (dist_of (next_use future frame)).
Proof. unfold index, next_use. by destruct (find_index frame future). Qed.

Lemma scan_step future seen st frame :
  scan_inv future seen st →
  ∃ st', optimal_scan_body future st frame = Ret st' ∧
         scan_inv future (seen ++ [frame]) st'.
Proof.
  destruct st as [replace max_dist]. unfold scan_inv, optimal_scan_body. simpl.
  rewrite scan_dist. simpl. intros HI.
  destruct (gt (dist_of (next_use future frame)) max_dist) eqn:Hgt.
  - eexists. split; [done|]. simpl. split; [done|]. exists (length seen).
    split; [by rewrite list_lookup_middle|].
    assert (∀ j y, seen !! j = Some y →
              dist_lt (next_use future y) (next_use future frame)) as Hlt.
    { intros j y Hj. destruct replace as [z|].
      - destruct HI as (-> & k & _ & Hle & _).
        apply gt_dist_true in Hgt. eapply dist_le_lt_trans; eauto.
      - destruct HI as [-> _]. done. }
    split.
    + intros j y Hj. apply lookup_app_Some in Hj as [Hj|[_ Hj]].
      * apply dist_lt_le. eauto.
      * apply list_lookup_singleton_Some in Hj as [_ <-]. apply dist_le_refl.
    + intros j y Hjk Hj. rewrite lookup_app_l in Hj by done. eauto.
  - eexists. split; [done|]. simpl. destruct replace as [z|].
    + destruct HI as (-> & k & Hk & Hle & Hlt). split; [done|]. exists k.
      apply gt_dist_false in Hgt. apply lookup_lt_Some in Hk as Hklt.
      split; [by rewrite lookup_app_l|]. split.
      * intros j y Hj. apply lookup_app_Some in Hj as [Hj|[_ Hj]]; [eauto|].
        apply list_lookup_singleton_Some in Hj as [_ <-]. done.
      * intros j y Hjk Hj. rewrite lookup_app_l in Hj by lia. eauto.
    + destruct HI as [_ ->]. by rewrite gt_dist_init in Hgt.
Qed.

Lemma scan_spec future frames seen st :
  scan_inv future seen st →
  ∃ st', for_each (optimal_scan_body future) st frames = Ret st' ∧
         scan_inv future (seen ++ frames) st'.
Proof.
  revert seen st. induction frames as [|frame rest IH]; intros seen st HI.
  - exists st. by rewrite app_nil_r.
  - destruct (scan_step future seen st frame HI) as (st1 & E1 & HI1).
    destruct (IH _ _ HI1) as (st' & E' & HI').
    exists st'. simpl. rewrite E1. simpl. split; [done|].
    by rewrite <-app_assoc in HI'.
Qed.

(** The victim chosen on a fault with full frames. *)
Lemma optimal_victim future frames page :
  NoDup frames → frames ≠ [] →
  ∃ k,
    ('(replace, _) ← for_each (optimal_scan_body future) (None, Int (-1)) frames;
     k ← index_opt frames replace;
     setitem frames (Z.of_nat k) page) = Ret (<[k := page]> frames) ∧
    k < length frames ∧ furthest future frames k.
Proof.
  intros Hnd Hne.
  destruct (scan_spec future frames [] (None, Int (-1))) as ([replace md] & -> & HI).
  { by split. }
  simpl in HI. unfold scan_inv in HI. simpl in HI. destruct replace as [z|].
  - destruct HI as (_ & k & Hk & Hle & Hlt). exists k. simpl.
    unfold index. rewrite (find_index_NoDup z frames k Hnd Hk). simpl.
    apply lookup_lt_Some in Hk as Hklt. rewrite setitem_nat by done.
    split; [done|]. split; [done|]. exists z. done.
  - by destruct HI as [-> _].
Qed.

End lookahead.

(** ** The hand of [second_chance] and [clock] *)

Section hand.
Implicit Types (bits frames : list Z) (hand page : Z) (k fuel : nat).

Lemma ones_le_length bits : ones bits ≤ length bits.
Proof. apply length_filter. Qed.

Lemma ones_clear bits k b :
  bits !! k = Some b → b ≠ 0%Z → S (ones (<[k := 0%Z]> bits)) = ones bits.
Proof.
  unfold ones. revert k. induction bits as [|c bits IH]; intros k Hk Hb; [done|].
  destruct k as [|k]; simpl in *.
  - injection Hk as ->. rewrite !filter_cons.
    rewrite decide_False by (intros ?; done). by rewrite decide_True.
  - rewrite !filter_cons. specialize (IH k Hk Hb).
    destruct (decide (c ≠ 0%Z)); simpl; lia.
Qed.

(** The loop never exhausts a budget larger than the number of set
    bits, whatever the state it is started in. *)
Lemma hand_sweep_fuel fuel modulus bits hand :
  ones bits < fuel → hand_sweep fuel modulus bits hand ≠ OutOfFuel.
Proof.
  revert bits hand. induction fuel as [|fuel IH]; intros bits hand Hlt; [lia|].
  simpl. unfold getitem, setitem.
  destruct (norm_index (length bits) hand) as [k|]; [|done].
  destruct (bits !! k) as [b|] eqn:Hk; [|done]. simpl.
  unfold truthy. case_bool_decide as Hb; simpl; [done|].
  unfold mod_. case_bool_decide; simpl; [done|].
  apply IH. pose proof (ones_clear bits k b Hk Hb). lia.
Qed.

Lemma hand_sweep_spec cap fuel bits hand :
  (1 ≤ cap)%Z → Z.of_nat (length bits) = cap →
  Forall (λ b, b = 0%Z ∨ b = 1%Z) bits → (0 ≤ hand < cap)%Z →
  ones bits < fuel →
  ∃ bits' hand',
    hand_sweep fuel cap bits hand = Ret (bits', hand') ∧
    sweeps cap bits hand bits' hand' ∧
    length bits' = length bits ∧
    Forall (λ b, b = 0%Z ∨ b = 1%Z) bits' ∧ (0 ≤ hand' < cap)%Z.
Proof.
  intros Hcap. revert bits hand.
  induction fuel as [|fuel IH]; intros bits hand Hlen Hbits Hhand Hfuel; [lia|].
  destruct (lookup_lt_is_Some_2 bits (Z.to_nat hand)) as [b Hb]; [lia|].
  simpl. rewrite (getitem_in_range _ _ _ (proj1 Hhand) Hb). simpl.
  pose proof (proj1 (Forall_lookup _ _) Hbits _ _ Hb) as [-> | ->]; simpl.
  - exists bits, hand. split; [done|]. split; [by constructor | done].
  - rewrite setitem_in_range by lia. simpl. rewrite mod_pos by lia. simpl.
    destruct (IH (<[Z.to_nat hand := 0%Z]> bits) ((hand + 1) `mod` cap)%Z)
      as (bits' & hand' & -> & Hsw & Hlen' & Hbits' & Hhand').
    + by rewrite length_insert.
    + apply Forall_insert; [done | by left].
    + apply Z.mod_pos_bound. lia.
    + pose proof (ones_clear bits _ 1%Z Hb). lia.
    + exists bits', hand'. split; [done|]. split; [by eapply sweeps_skip|].
      rewrite length_insert in Hlen'. done.
Qed.

Lemma replace_at_hand_spec cap frames bits hand page :
  (1 ≤ cap)%Z → Z.of_nat (length frames) = cap → length bits = length frames →
  Forall (λ b, b = 0%Z ∨ b = 1%Z) bits → (0 ≤ hand < cap)%Z →
  ∃ bits1 victim,
    sweeps cap bits hand bits1 victim ∧ (0 ≤ victim < cap)%Z ∧
    length bits1 = length bits ∧ Forall (λ b, b = 0%Z ∨ b = 1%Z) bits1 ∧
    replace_at_hand cap frames bits hand page
    = Ret (<[Z.to_nat victim := page]> frames,
           <[Z.to_nat victim := 1%Z]> bits1,
           ((victim + 1) `mod` cap)%Z).
Proof.
  intros Hcap Hfull Hlen Hbits Hhand. unfold replace_at_hand.
  destruct (hand_sweep_spec cap (S (length bits)) bits hand)
    as (bits1 & victim & -> & Hsw & Hlen1 & Hbits1 & Hv);
    [done | lia | done | done | pose proof (ones_le_length bits); lia |].
  exists bits1, victim. simpl.
  rewrite setitem_in_range by lia. simpl.
  rewrite setitem_in_range by lia. simpl.
  rewrite mod_pos by lia. done.
Qed.

(** The budget handed to the loop is never exhausted. *)
Lemma replace_at_hand_fuel modulus frames bits hand page :
  replace_at_hand modulus frames bits hand page ≠ OutOfFuel.
Proof.
  unfold replace_at_hand.
  pose proof (hand_sweep_fuel (S (length bits)) modulus bits hand) as Hfuel.
  destruct (hand_sweep (S (length bits)) modulus bits hand) as [[bits1 hand1]| |];
    simpl; [|done|].
  - unfold setitem, mod_.
    destruct (norm_index (length frames) hand1); simpl; [|done].
    destruct (norm_index (length bits1) hand1); simpl; [|done].
    by case_bool_decide.
  - exfalso. apply Hfuel; [|done]. pose proof (ones_le_length bits). lia.
Qed.

(** The sweep stops on a clear bit. *)
Lemma sweeps_stops cap bits hand bits' hand' :
  sweeps cap bits hand bits' hand' → bits' !! Z.to_nat hand' = Some 0%Z.
Proof. induction 1; done. Qed.

End hand.

(** ** One iteration of [second_chance], [clock] and [optimal] *)

Section rb_bodies.
Context (cap : Z) (Hcap : (1 ≤ cap)%Z).
Implicit Types (frames ref_bits : list Z) (pointer page page_faults : Z)
  (steps : list step).

Lemma second_chance_hit frames ref_bits pointer page_faults steps page :
  rb_inv cap (frames, ref_bits, pointer, page_faults, steps) →
  page ∈ frames →
  ∃ k, frames !! k = Some page ∧
    second_chance_body cap (frames, ref_bits, pointer, page_faults, steps) page
    = Ret (frames, <[k := 1%Z]> ref_bits, pointer, page_faults,
           steps ++ [Step page frames frames false]).
Proof using Type.
  intros (Hnd & Hle & Hlen & Hbits & Hptr) Hin.
  destruct (find_index_is_Some page frames Hin) as [k Hk].
  apply find_index_lookup in Hk as Hlk. apply lookup_lt_Some in Hlk as Hlt.
  exists k. split; [done|]. unfold second_chance_body.
  apply contains_true in Hin. rewrite Hin. simpl.
  unfold index. rewrite Hk. simpl. rewrite setitem_nat by lia. done.
Qed.

Lemma second_chance_fill frames ref_bits pointer page_faults steps page :
  page ∉ frames → (Z.of_nat (length frames) < cap)%Z →
  second_chance_body cap (frames, ref_bits, pointer, page_faults, steps) page
  = Ret (frames ++ [page], ref_bits ++ [1%Z], pointer, (page_faults + 1)%Z,
         steps ++ [Step page frames (frames ++ [page]) true]).
Proof using Type.
  intros Hni Hlt. unfold second_chance_body.
  apply contains_false in Hni. rewrite Hni. simpl.
  by rewrite bool_decide_eq_true_2.
Qed.

Lemma second_chance_full frames ref_bits pointer page_faults steps page :
  rb_inv cap (frames, ref_bits, pointer, page_faults, steps) →
  page ∉ frames → Z.of_nat (length frames) = cap →
  ∃ bits1 victim,
    sweeps cap ref_bits pointer bits1 victim ∧ (0 ≤ victim < cap)%Z ∧
    length bits1 = length ref_bits ∧ Forall (λ b, b = 0%Z ∨ b = 1%Z) bits1 ∧
    second_chance_body cap (frames, ref_bits, pointer, page_faults, steps) page
    = Ret (<[Z.to_nat victim := page]> frames,
           <[Z.to_nat victim := 1%Z]> bits1,
           ((victim + 1) `mod` cap)%Z, (page_faults + 1)%Z,
           steps ++ [Step page frames (<[Z.to_nat victim := page]> frames) true]).
Proof using Hcap.
  intros (Hnd & Hle & Hlen & Hbits & Hptr) Hni Hfull.
  destruct (replace_at_hand_spec cap frames ref_bits pointer page)
    as (bits1 & victim & Hsw & Hv & Hlen1 & Hbits1 & E); try done.
  exists bits1, victim. repeat (split; [done|]).
  unfold second_chance_body. apply contains_false in Hni. rewrite Hni. simpl.
  rewrite bool_decide_eq_false_2 by lia. rewrite E. done.
Qed.

Lemma second_chance_body_spec future frames ref_bits pointer page_faults steps page :
  rb_inv cap (frames, ref_bits, pointer, page_faults, steps) →
  ∃ a fs' bits' pointer' (b : bool),
    second_chance_body cap (frames, ref_bits, pointer, page_faults, steps) page
    = Ret (fs', bits', pointer', (if b then page_faults + 1 else page_faults)%Z,
           steps ++ [Step page frames fs' b]) ∧
    rb_inv cap (fs', bits', pointer',
                (if b then page_faults + 1 else page_faults)%Z,
                steps ++ [Step page frames fs' b]) ∧
    move cap page frames a fs' b ∧ uses SecondChance future frames a.
Proof using Hcap.
  intros HI. pose proof HI as (Hnd & Hle & Hlen & Hbits & Hptr).
  destruct (decide (page ∈ frames)) as [Hin|Hni].
  - destruct (second_chance_hit _ _ _ page_faults steps _ HI Hin) as (k & Hk & E).
    exists Hit, frames, (<[k := 1%Z]> ref_bits), pointer, false.
    split; [done|]. split; [|split; [by constructor | done]].
    repeat split; try done; try lia.
    + by rewrite length_insert.
    + apply Forall_insert; [done | by right].
  - destruct (decide (Z.of_nat (length frames) < cap)%Z) as [Hlt|Hge].
    + exists Fill, (frames ++ [page]), (ref_bits ++ [1%Z]), pointer, true.
      split; [by apply second_chance_fill|].
      assert (move cap page frames Fill (frames ++ [page]) true) as Hm
        by (by constructor).
      split; [|done]. repeat split; try lia.
      * eapply move_NoDup; eauto.
      * eapply move_length; eauto.
      * rewrite !length_app. simpl. lia.
      * apply Forall_app. split; [done|]. apply Forall_singleton. by right.
    + assert (Z.of_nat (length frames) = cap) as Hfull by lia.
      destruct (second_chance_full _ _ _ page_faults steps _ HI Hni Hfull)
        as (bits1 & victim & Hsw & Hv & Hlen1 & Hbits1 & E).
      exists (Replace (Z.to_nat victim)), (<[Z.to_nat victim := page]> frames),
        (<[Z.to_nat victim := 1%Z]> bits1), ((victim + 1) `mod` cap)%Z, true.
      split; [done|].
      assert (move cap page frames (Replace (Z.to_nat victim))
                (<[Z.to_nat victim := page]> frames) true) as Hm
        by (constructor; [done | done | lia]).
      split; [|done]. repeat split.
      * eapply move_NoDup; eauto.
      * eapply move_length; eauto.
      * rewrite !length_insert. lia.
      * apply Forall_insert; [done | by right].
      * apply Z.mod_pos_bound. lia.
      * apply Z.mod_pos_bound. lia.
Qed.

(** While the invariant holds, the two bodies compute the same thing:
    the hand only moves when [len(frames) = frame_size]. *)
Lemma clock_body_eq st page :
  rb_inv cap st → clock_body cap st page = second_chance_body cap st page.
Proof using Type.
  destruct st as [[[[frames ref_bits] pointer] page_faults] steps].
  intros (Hnd & Hle & Hlen & Hbits & Hptr).
  unfold clock_body, second_chance_body.
  destruct (contains page frames); simpl; [done|].
  case_bool_decide as Hlt; [done|].
  replace (Z.of_nat (length frames)) with cap by lia. done.
Qed.

Lemma optimal_body_spec reference_string pre post frames page_faults steps page :
  reference_string = pre ++ page :: post →
  NoDup frames → (Z.of_nat (length frames) ≤ cap)%Z →
  ∃ a fs' (b : bool),
    optimal_body reference_string cap (frames, page_faults, steps) (length pre, page)
    = Ret (fs', (if b then page_faults + 1 else page_faults)%Z,
           steps ++ [Step page frames fs' b]) ∧
    move cap page frames a fs' b ∧ uses Optimal post frames a.
Proof using Hcap.
  intros -> Hnd Hle. unfold optimal_body.
  destruct (contains page frames) eqn:Hc; simpl.
  - apply contains_true in Hc. exists Hit, frames, false.
    split; [done|]. split; [by constructor | done].
  - apply contains_false in Hc. case_bool_decide as Hlt.
    + exists Fill, (frames ++ [page]), true. simpl.
      split; [done|]. split; [by constructor | done].
    + replace (drop (length pre + 1) (pre ++ page :: post)) with post; last first.
      { rewrite cons_middle, app_assoc, drop_app_length'; [done|].
        rewrite length_app. simpl. lia. }
      destruct (optimal_victim post frames page Hnd) as (k & -> & Hk & Hf).
      { intros ->. simpl in *. lia. }
      exists (Replace k), (<[k := page]> frames), true. simpl.
      split; [done|]. split; [|done]. constructor; [done | lia | done].
Qed.

End rb_bodies.

(** ** Every run is a chain of moves *)

Section runs.
Context (cap : Z) (Hcap : (1 ≤ cap)%Z).

Lemma enumerate_from_snd {A} (l : list A) n : snd <$> enumerate_from n l = l.
Proof. revert n. induction l as [|x l IH]; intros n; simpl; [done|]. by rewrite IH. Qed.

(** [fifo] and [lru] share the shape of their loop. *)
Lemma queue_loop (P : policy) (body : Z → locals → Z → outcome locals) :
  (∀ future frames page_faults steps page,
     NoDup frames → (Z.of_nat (length frames) ≤ cap)%Z →
     ∃ a fs' (b : bool),
       body cap (frames, page_faults, steps) page
       = Ret (fs', (if b then page_faults + 1 else page_faults)%Z,
              steps ++ [Step page frames fs' b]) ∧
       move cap page frames a fs' b ∧ uses P future frames a) →
  ∀ σ frames page_faults steps,
    NoDup frames → (Z.of_nat (length frames) ≤ cap)%Z →
    ∃ fs' tr,
      for_each (body cap) (frames, page_faults, steps) σ
      = Ret (fs', (page_faults + Z.of_nat (fault_count tr))%Z, steps ++ tr) ∧
      chain P cap frames σ tr fs'.
Proof using Type.
  intros Hbody σ frames page_faults steps Hnd Hle.
  destruct (for_each_chain (body cap) id (λ s, s.1.1) (λ s, s.1.2) (λ s, s.2)
              P cap (λ _ s, NoDup s.1.1 ∧ (Z.of_nat (length s.1.1) ≤ cap)%Z))
    with (items := σ) (s := (frames, page_faults, steps))
    as ([[fs' pf'] st'] & tr & E & _ & Hch & Hst & Hpf); [|done|].
  - intros [[fs pf] st] x rest [Hn Hl]. simpl in *.
    destruct (Hbody rest fs pf st x Hn Hl) as (a & fs1 & b & E & Hm & Hu).
    eexists _, a, b. split; [exact E|]. simpl.
    split; [split; [by eapply move_NoDup | by eapply move_length]|].
    split; [done|]. rewrite list_fmap_id. split; [exact Hu | done].
  - simpl in *. subst. rewrite list_fmap_id in Hch. eauto.
Qed.

Lemma optimal_loop reference_string pre σ frames page_faults steps :
  reference_string = pre ++ σ →
  NoDup frames → (Z.of_nat (length frames) ≤ cap)%Z →
  ∃ fs' tr,
    for_each (optimal_body reference_string cap) (frames, page_faults, steps)
             (enumerate_from (length pre) σ)
    = Ret (fs', (page_faults + Z.of_nat (fault_count tr))%Z, steps ++ tr) ∧
    chain Optimal cap frames σ tr fs'.
Proof using Hcap.
  intros Href Hnd Hle.
  destruct (for_each_chain (optimal_body reference_string cap) snd
              (λ s, s.1.1) (λ s, s.1.2) (λ s, s.2)
              Optimal cap (optimal_inv reference_string cap))
    with (items := enumerate_from (length pre) σ) (s := (frames, page_faults, steps))
    as ([[fs' pf'] st'] & tr & E & _ & Hch & Hst & Hpf).
  - intros [[fs pf] st] [i x] rest (Hn & Hl & pre' & Hr & Hen). simpl in *.
    injection Hen as -> Hen.
    destruct (optimal_body_spec cap Hcap reference_string pre' (snd <$> rest)
                fs pf st x Hr Hn Hl) as (a & fs1 & b & E & Hm & Hu).
    eexists _, a, b. split; [exact E|]. simpl.
    split; [|done]. split; [by eapply move_NoDup|].
    split; [by eapply move_length|].
    exists (pre' ++ [x]). rewrite <-app_assoc. split; [done|].
    rewrite length_app. simpl. by rewrite Nat.add_1_r.
  - split; [done|]. split; [done|]. exists pre.
    by rewrite enumerate_from_snd.
  - simpl in *. subst. rewrite enumerate_from_snd in Hch. eauto.
Qed.

Lemma second_chance_loop σ st :
  rb_inv cap st →
  ∃ fs' bits' pointer' tr,
    for_each (second_chance_body cap) st σ
    = Ret (fs', bits', pointer', (st.1.2 + Z.of_nat (fault_count tr))%Z, st.2 ++ tr) ∧
    rb_inv cap (fs', bits', pointer', (st.1.2 + Z.of_nat (fault_count tr))%Z, st.2 ++ tr) ∧
    chain SecondChance cap st.1.1.1.1 σ tr fs'.
Proof using Hcap.
  intros HI.
  destruct (for_each_chain (second_chance_body cap) id
              (λ s, s.1.1.1.1) (λ s, s.1.2) (λ s, s.2)
              SecondChance cap (λ _ s, rb_inv cap s))
    with (items := σ) (s := st)
    as ([[[[fs' bits'] pointer'] pf'] st'] & tr & E & HI' & Hch & Hst & Hpf); [|done|].
  - intros [[[[fs bits] ptr] pf] stp] x rest HIs. simpl in *.
    destruct (second_chance_body_spec cap Hcap rest fs bits ptr pf stp x HIs)
      as (a & fs1 & bits1 & ptr1 & b & E & HI1 & Hm & Hu).
    eexists _, a, b. split; [exact E|]. simpl.
    split; [done|]. split; [done|]. split; [exact Hu | done].
  - simpl in *. subst. rewrite list_fmap_id in Hch. eauto 10.
Qed.

Lemma clock_loop_eq σ st :
  rb_inv cap st →
  for_each (clock_body cap) st σ = for_each (second_chance_body cap) st σ.
Proof using Hcap.
  revert st. induction σ as [|x σ IH]; intros st HI; [done|]. simpl.
  rewrite clock_body_eq by done.
  destruct st as [[[[fs bits] ptr] pf] stp].
  destruct (second_chance_body_spec cap Hcap [] fs bits ptr pf stp x HI)
    as (a & fs1 & bits1 & ptr1 & b & E & HI1 & _).
  rewrite E. simpl. by apply IH.
Qed.

Lemma chain_clock fs σ tr fs' :
  chain SecondChance cap fs σ tr fs' → chain Clock cap fs σ tr fs'.
Proof using Type. induction 1; [constructor | econstructor; eauto]. Qed.

Lemma rb_inv_init : rb_inv cap ([], [], 0%Z, 0%Z, []).
Proof using Hcap.
  repeat split; [constructor | simpl; lia | constructor | lia | lia].
Qed.

(** Every policy returns, and what it returns is a chain of its moves
    over the reference string, starting from empty frames. *)
Lemma run_chain P σ :
  ∃ tr fs,
    ALGORITHMS P σ cap = Ret (Result (Z.of_nat (fault_count tr)) tr) ∧
    chain P cap [] σ tr fs.
Proof using Hcap.
  destruct P; simpl.
  - destruct (queue_loop FIFO fifo_body (fifo_body_spec cap Hcap) σ [] 0%Z [])
      as (fs & tr & E & Hch); [constructor | simpl; lia |].
    exists tr, fs. unfold fifo. rewrite E. done.
  - destruct (queue_loop LRU lru_body (lru_body_spec cap Hcap) σ [] 0%Z [])
      as (fs & tr & E & Hch); [constructor | simpl; lia |].
    exists tr, fs. unfold lru. rewrite E. done.
  - destruct (optimal_loop σ [] σ [] 0%Z []) as (fs & tr & E & Hch);
      [done | constructor | simpl; lia |].
    exists tr, fs. unfold optimal, enumerate. simpl in E. rewrite E. done.
  - destruct (second_chance_loop σ _ rb_inv_init) as (fs & ? & ? & tr & E & _ & Hch).
    exists tr, fs. unfold second_chance. rewrite E. done.
  - destruct (second_chance_loop σ _ rb_inv_init) as (fs & ? & ? & tr & E & _ & Hch).
    exists tr, fs. unfold clock. rewrite clock_loop_eq by apply rb_inv_init.
    rewrite E. split; [done|]. by apply chain_clock.
Qed.

End runs.

(** ** What a chain says about each step record *)

Section chains.
Context (P : policy) (cap : Z).

Lemma chain_pages fs σ tr fs' : chain P cap fs σ tr fs' → page <$> tr = σ.
Proof. induction 1 as [|???????? _ _ _ IH]; [done|]. by rewrite fmap_cons, IH. Qed.

Lemma chain_lookup fs σ tr fs' i s :
  chain P cap fs σ tr fs' →
  NoDup fs → (Z.of_nat (length fs) ≤ cap)%Z →
  tr !! i = Some s →
  NoDup (frames_before s) ∧ (Z.of_nat (length (frames_before s)) ≤ cap)%Z ∧
  ∃ a, move cap (page s) (frames_before s) a (frames_after s) (page_fault s) ∧
       uses P (drop (S i) σ) (frames_before s) a.
Proof.
  intros Hch. revert i. induction Hch as [|fs p a fs1 b σ tr fs2 Hm Hu Hch IH];
    intros i Hnd Hle Hi; [done|].
  destruct i as [|i]; simpl in Hi.
  - injection Hi as <-. simpl. rewrite drop_0. eauto.
  - simpl. apply IH; [by eapply move_NoDup | by eapply move_length | done].
Qed.

Lemma chain_elem fs σ tr fs' s :
  chain P cap fs σ tr fs' →
  NoDup fs → (Z.of_nat (length fs) ≤ cap)%Z →
  s ∈ tr →
  NoDup (frames_before s) ∧ (Z.of_nat (length (frames_before s)) ≤ cap)%Z ∧
  ∃ a future, move cap (page s) (frames_before s) a (frames_after s) (page_fault s) ∧
       uses P future (frames_before s) a.
Proof.
  intros Hch Hnd Hle Hs. apply list_elem_of_lookup_1 in Hs as [i Hi].
  destruct (chain_lookup _ _ _ _ _ _ Hch Hnd Hle Hi) as (? & ? & a & ? & ?).
  eauto 10.
Qed.

End chains.

(** ** Small runs *)

(** C1. On the reference string [1,2,3,4,1,2,5,1,2,3,4,5] with three
    frames, [fifo] reports 9 faults, [lru] 10 and [optimal] 7. *)
Theorem sample_fault_counts :
  ∃ rf rl ro,
    fifo ref_string 3 = Ret rf ∧ faults rf = 9%Z ∧
    lru ref_string 3 = Ret rl ∧ faults rl = 10%Z ∧
    optimal ref_string 3 = Ret ro ∧ faults ro = 7%Z.
Proof. do 3 eexists. repeat split; vm_compute; reflexivity. Qed.

(** ** Capacity below one *)

(** With no frame at all, the empty reference string is replayed without
    any error: every policy returns the empty result. *)
Lemma empty_run P cap : ALGORITHMS P [] cap = Ret (Result 0 []).
Proof. by destruct P. Qed.

(** C3, as stated, fails: with capacity 0 and the empty reference string
    every policy returns a result (zero faults, empty trace) instead of
    failing. *)
Lemma capacity_zero_empty_string_returns :
  fifo [] 0 = Ret (Result 0 []) ∧
  lru [] 0 = Ret (Result 0 []) ∧
  optimal [] 0 = Ret (Result 0 []) ∧
  second_chance [] 0 = Ret (Result 0 []) ∧
  clock [] 0 = Ret (Result 0 []).
Proof. repeat split. Qed.

(** With no frame, the first reference trips a list operation on the
    empty frame list. *)
Lemma first_reference_raises P p σ cap :
  (cap < 1)%Z →
  ALGORITHMS P (p :: σ) cap
  = Raise (match P with Optimal => ValueError | _ => IndexError end).
Proof.
  intros Hcap.
  destruct P; unfold ALGORITHMS, fifo, lru, optimal, second_chance, clock; simpl;
    by rewrite bool_decide_eq_false_2 by (simpl; lia).
Qed.

(** C3, amended. With a capacity below one the policies check nothing up
    front: the empty reference string yields the empty result, and any
    other reference string makes the run fail at its first reference, on
    the empty frame list, with the exception of the list operation that
    trips ([IndexError] from [pop(0)] in [fifo] and [lru] and from
    [ref_bits[pointer]] in [second_chance] and [clock], [ValueError] from
    [frames.index(None)] in [optimal]); no result is returned. *)
Theorem capacity_below_one P σ cap :
  (cap < 1)%Z →
  (σ = [] → ALGORITHMS P σ cap = Ret (Result 0 [])) ∧
  (σ ≠ [] →
   ALGORITHMS P σ cap
   = Raise (match P with Optimal => ValueError | _ => IndexError end)).
Proof.
  intros Hcap. split; [intros ->; apply empty_run|].
  destruct σ as [|p σ]; [done|]. intros _. by apply first_reference_raises.
Qed.

Lemma capacity_below_one_witness :
  fifo [7%Z] 0 = Raise IndexError ∧ optimal [7%Z; 8%Z] (-2) = Raise ValueError.
Proof.
  split.
  - apply (capacity_below_one FIFO [7%Z] 0); [lia | done].
  - apply (capacity_below_one Optimal [7%Z; 8%Z] (-2)); [lia | done].
Defined.

(** X20. Whatever the input, no policy exhausts the iteration budget of
    its [while] loop: the loop of [second_chance] and [clock] clears a
    set bit at every pass and so ends within [len(ref_bits) + 1] tests;
    a run either returns a result or raises. *)
Lemma never_out_of_fuel P σ cap : ALGORITHMS P σ cap ≠ OutOfFuel.
Proof.
  destruct (decide (1 ≤ cap)%Z) as [Hcap|Hcap].
  - destruct (run_chain cap Hcap P σ) as (tr & fs & -> & _). done.
  - destruct σ as [|p σ]; [by rewrite empty_run|].
    rewrite first_reference_raises by lia. done.
Qed.

(** ** Properties of every trace *)

(** C4. With at least one frame every policy returns, and in every step
    record [frames_after] has at most [frame_size] entries and holds no
    page twice. *)
Theorem frames_after_bounded_nodup P σ cap :
  (1 ≤ cap)%Z →
  ∃ r, ALGORITHMS P σ cap = Ret r ∧
    ∀ s, s ∈ steps r →
      (Z.of_nat (length (frames_after s)) ≤ cap)%Z ∧ NoDup (frames_after s).
Proof.
  intros Hcap. destruct (run_chain cap Hcap P σ) as (tr & fs & E & Hch).
  eexists. split; [exact E|]. simpl. intros s Hs.
  destruct (chain_elem P cap [] σ tr fs s Hch) as (Hnd & Hle & a & _ & Hm & _);
    [constructor | simpl; lia | done |].
  split; [by eapply move_length | by eapply move_NoDup].
Qed.

Lemma frames_after_bounded_nodup_witness :
  ∃ r, ALGORITHMS LRU ref_string 3 = Ret r ∧
    ∀ s, s ∈ steps r →
      (Z.of_nat (length (frames_after s)) ≤ 3)%Z ∧ NoDup (frames_after s).
Proof. apply (frames_after_bounded_nodup LRU ref_string 3). lia. Defined.

(** C5. With at least one frame every policy returns one step record per
    position of the reference string, in order (the record at position
    [i] is for the page at position [i], so the empty string gives the
    empty trace), and the returned fault count is the number of records
    whose fault flag is set. *)
Theorem one_step_per_reference P σ cap :
  (1 ≤ cap)%Z →
  ∃ r, ALGORITHMS P σ cap = Ret r ∧
    length (steps r) = length σ ∧
    page <$> steps r = σ ∧
    faults r = Z.of_nat (fault_count (steps r)).
Proof.
  intros Hcap. destruct (run_chain cap Hcap P σ) as (tr & fs & E & Hch).
  eexists. split; [exact E|]. simpl.
  pose proof (chain_pages P cap _ _ _ _ Hch) as Hp.
  split; [by rewrite <-Hp, length_fmap | done].
Qed.

Lemma one_step_per_reference_witness :
  ∃ r, ALGORITHMS Clock ref_string 3 = Ret r ∧
    length (steps r) = length ref_string ∧
    page <$> steps r = ref_string ∧
    faults r = Z.of_nat (fault_count (steps r)).
Proof. apply (one_step_per_reference Clock ref_string 3). lia. Defined.

(** C6. On a hit, [fifo] and [optimal] leave the frame list exactly as it
    was; for [lru], [second_chance] and [clock] the resident pages before
    and after are the same set. *)
Theorem hit_keeps_residents P σ cap :
  (1 ≤ cap)%Z →
  ∃ r, ALGORITHMS P σ cap = Ret r ∧
    ∀ s, s ∈ steps r → page_fault s = false →
      match P with
      | FIFO | Optimal => frames_before s = frames_after s
      | LRU | SecondChance | Clock =>
        ∀ x, x ∈ frames_before s ↔ x ∈ frames_after s
      end.
Proof.
  intros Hcap. destruct (run_chain cap Hcap P σ) as (tr & fs & E & Hch).
  eexists. split; [exact E|]. simpl. intros s Hs Hhit.
  destruct (chain_elem P cap [] σ tr fs s Hch) as (Hnd & Hle & a & fut & Hm & Hu);
    [constructor | simpl; lia | done |].
  pose proof (move_perm _ _ _ _ _ _ Hm) as Hp.
  destruct Hm as [Hin|fs0 Hin Hrm|Hni Hlt|k Hni Hfull Hk|z rest Hni Hfull Heq];
    try done.
  - by destruct P.
  - destruct P; try done; intros x; by rewrite Hp.
Qed.

Lemma hit_keeps_residents_witness :
  ∃ r, ALGORITHMS LRU ref_string 3 = Ret r ∧
    ∀ s, s ∈ steps r → page_fault s = false →
      ∀ x, x ∈ frames_before s ↔ x ∈ frames_after s.
Proof. apply (hit_keeps_residents LRU ref_string 3). lia. Defined.

(** ** Second-Chance and Clock *)

Lemma for_each_snoc {A S} (body : S → A → outcome S) (s : S) (l : list A) (x : A) :
  for_each body s (l ++ [x]) = (s' ← for_each body s l; body s' x).
Proof.
  revert s. induction l as [|y l IH]; intros s; simpl.
  - by destruct (body s x).
  - destruct (body s y); simpl; [apply IH | done | done].
Qed.

(** C8. In a run of [second_chance], let the loop have consumed [pre] and
    stand in state [(frames, ref_bits, pointer, ...)]; the pointer is
    part of that state, carried from one reference to the next.  If the
    next page is resident, the bit of its slot is set to 1 and frames and
    pointer stay as they are.  If it is not resident and the frames are
    full, the hand sweeps from [pointer], clearing set bits and
    advancing modulo [frame_size], to the first slot [victim] whose bit
    is clear; that slot receives the page, its bit becomes 1, and the
    pointer is left one past it, again modulo [frame_size]. *)
Theorem second_chance_hand cap pre page frames ref_bits pointer page_faults steps :
  (1 ≤ cap)%Z →
  for_each (second_chance_body cap) ([], [], 0%Z, 0%Z, []) pre
  = Ret (frames, ref_bits, pointer, page_faults, steps) →
  (page ∈ frames →
   ∃ k, frames !! k = Some page ∧
     for_each (second_chance_body cap) ([], [], 0%Z, 0%Z, []) (pre ++ [page])
     = Ret (frames, <[k := 1%Z]> ref_bits, pointer, page_faults,
            steps ++ [Step page frames frames false])) ∧
  (page ∉ frames → Z.of_nat (length frames) = cap →
   ∃ bits1 victim,
     sweeps cap ref_bits pointer bits1 victim ∧ (0 ≤ victim < cap)%Z ∧
     bits1 !! Z.to_nat victim = Some 0%Z ∧
     for_each (second_chance_body cap) ([], [], 0%Z, 0%Z, []) (pre ++ [page])
     = Ret (<[Z.to_nat victim := page]> frames,
            <[Z.to_nat victim := 1%Z]> bits1,
            ((victim + 1) `mod` cap)%Z, (page_faults + 1)%Z,
            steps ++ [Step page frames (<[Z.to_nat victim := page]> frames) true])).
Proof.
  intros Hcap Hpre.
  assert (rb_inv cap (frames, ref_bits, pointer, page_faults, steps)) as HI.
  { destruct (second_chance_loop cap Hcap pre _ (rb_inv_init cap Hcap))
      as (? & ? & ? & ? & E & HI & _).
    rewrite Hpre in E. by simplify_eq/=. }
  rewrite for_each_snoc, Hpre. simpl. split.
  - intros Hin. by apply second_chance_hit.
  - intros Hni Hfull.
    destruct (second_chance_full cap Hcap _ _ _ page_faults steps _ HI Hni Hfull)
      as (bits1 & victim & Hsw & Hv & _ & _ & E).
    exists bits1, victim. repeat (split; [done|]).
    split; [by eapply sweeps_stops | done].
Qed.

Lemma second_chance_hand_witness :
  ∃ bits1 victim,
    sweeps 1 [1%Z] 0 bits1 victim ∧ (0 ≤ victim < 1)%Z ∧
    bits1 !! Z.to_nat victim = Some 0%Z ∧
    for_each (second_chance_body 1) ([], [], 0%Z, 0%Z, []) [1%Z; 2%Z]
    = Ret (<[Z.to_nat victim := 2%Z]> [1%Z],
           <[Z.to_nat victim := 1%Z]> bits1,
           ((victim + 1) `mod` 1)%Z, 2%Z,
           [Step 1 [] [1%Z] true] ++
           [Step 2 [1%Z] (<[Z.to_nat victim := 2%Z]> [1%Z]) true]).
Proof.
  apply (second_chance_hand 1 [1%Z] 2 [1%Z] [1%Z] 0 1 [Step 1 [] [1%Z] true]).
  - lia.
  - reflexivity.
  - rewrite list_elem_of_singleton. lia.
  - reflexivity.
Defined.

(** C9. With at least one frame, [second_chance] and [clock] return the
    same result, fault count and trace alike: the hand only ever moves
    when the frames are full, where [len(frames)] is [frame_size]. *)
Theorem clock_same_as_second_chance σ cap :
  (1 ≤ cap)%Z →
  ∃ r, second_chance σ cap = Ret r ∧ clock σ cap = Ret r.
Proof.
  intros Hcap.
  destruct (run_chain cap Hcap SecondChance σ) as (tr & fs & E & _). simpl in E.
  eexists. split; [exact E|].
  unfold clock. rewrite clock_loop_eq by (done || by apply rb_inv_init). exact E.
Qed.

Lemma clock_same_as_second_chance_witness :
  ∃ r, second_chance ref_string 3 = Ret r ∧ clock ref_string 3 = Ret r.
Proof. apply (clock_same_as_second_chance ref_string 3). lia. Defined.

(** ** Optimality of [optimal] *)

Section counting.
Implicit Types (σ l : list Z) (x y z r : Z) (t : nat).

Global Instance cnt_far_perm σ t : Proper ((≡ₚ) ==> (=)) (cnt_far σ t).
Proof. intros l1 l2 H. unfold cnt_far. by rewrite H. Qed.

Lemma cnt_far_cons σ t x l :
  cnt_far σ t (x :: l) = ind (far σ t x) + cnt_far σ t l.
Proof.
  unfold cnt_far, ind. rewrite filter_cons. by destruct (decide (far σ t x)).
Qed.

Lemma ind_le_1 (P : Prop) `{Decision P} : ind P ≤ 1.
Proof. unfold ind. destruct (decide P); lia. Qed.

Lemma far_cons r σ t y : far (r :: σ) (S t) y ↔ y ≠ r ∧ far σ t y.
Proof. unfold far. simpl. apply not_elem_of_cons. Qed.

Lemma far_0 σ y : far σ 0 y.
Proof. unfold far. rewrite take_0. apply not_elem_of_nil. Qed.

Lemma cnt_far_0 σ l : cnt_far σ 0 l = length l.
Proof.
  induction l as [|x l IH]; [done|]. rewrite cnt_far_cons, IH.
  unfold ind. rewrite decide_True by apply far_0. done.
Qed.

(** Pages other than the one just referenced are as far as before. *)
Lemma cnt_far_shift r σ t l :
  r ∉ l → cnt_far (r :: σ) (S t) l = cnt_far σ t l.
Proof.
  induction l as [|x l IH]; [done|]. intros [Hx Hl]%not_elem_of_cons.
  rewrite !cnt_far_cons, IH by done. f_equal. unfold ind.
  destruct (decide (far σ t x)) as [Hf|Hf].
  - rewrite decide_True; [done|]. apply far_cons. split; [congruence | done].
  - rewrite decide_False; [done|]. rewrite far_cons. tauto.
Qed.

Lemma cnt_far_head r σ t l :
  cnt_far (r :: σ) (S t) (r :: l) = cnt_far (r :: σ) (S t) l.
Proof.
  rewrite cnt_far_cons. unfold ind. rewrite decide_False; [done|].
  rewrite far_cons. tauto.
Qed.

(** A resident page that is referenced now. *)
Lemma cnt_far_resident r σ t l :
  NoDup l → r ∈ l →
  cnt_far σ t l = ind (far σ t r) + cnt_far (r :: σ) (S t) l.
Proof.
  intros Hnd [l0 Hp]%elem_of_Permutation. rewrite Hp in Hnd.
  apply NoDup_cons in Hnd as [Hr _].
  by rewrite Hp, cnt_far_cons, cnt_far_head, cnt_far_shift.
Qed.

Lemma in_take_find_index σ t x :
  x ∈ take t σ ↔ ∃ j, next_use σ x = Some j ∧ j < t.
Proof.
  unfold next_use. rewrite elem_of_take. split.
  - intros (i & Hi & Hlt). destruct (find_index_is_Some x σ) as [j Hj].
    { by eapply list_elem_of_lookup_2. }
    exists j. split; [done|]. apply find_index_Some in Hj as [_ Hni].
    destruct (decide (j < t)) as [|Hge]; [done|]. exfalso. apply Hni.
    apply elem_of_take. exists i. split; [done | lia].
  - intros (j & Hj & Hlt). apply find_index_lookup in Hj. eauto.
Qed.

(** If the page used latest is already needed within [t] references,
    so is every other page. *)
Lemma far_latest σ t y z :
  dist_le (next_use σ y) (next_use σ z) → far σ t y → far σ t z.
Proof.
  unfold far. intros Hle Hy Hz. apply Hy.
  apply in_take_find_index in Hz as (j & Hj & Hlt). rewrite Hj in Hle.
  apply in_take_find_index.
  destruct (next_use σ y) as [i|]; simpl in Hle; [|done].
  exists i. split; [done | lia].
Qed.

Lemma cnt_far_none σ t l :
  (∀ y, y ∈ l → ¬ far σ t y) → cnt_far σ t l = 0.
Proof.
  induction l as [|x l IH]; [done|]. intros H. rewrite cnt_far_cons, IH.
  - unfold ind. rewrite decide_False; [done|]. apply H. left.
  - intros y Hy. apply H. by right.
Qed.

End counting.

Section belady.
Context (cap : Z).
Implicit Types (σ M A : list Z) (r z : Z) (t d : nat) (a : kind) (b : bool).

Lemma fault_count_cons p fs fs' b tr :
  fault_count (Step p fs fs' b :: tr) = Nat.b2n b + fault_count tr.
Proof. unfold fault_count. rewrite filter_cons. by destruct b. Qed.

(** The three things a reference can be, for any policy. *)
Lemma move_cases r fs a fs' b :
  move cap r fs a fs' b →
  (b = false ∧ r ∈ fs ∧ fs' ≡ₚ fs) ∨
  (b = true ∧ (r ∉ fs) ∧ (Z.of_nat (length fs) < cap)%Z ∧ fs' ≡ₚ r :: fs) ∨
  (b = true ∧ (r ∉ fs) ∧ Z.of_nat (length fs) = cap ∧
   ∃ z rest, fs ≡ₚ z :: rest ∧ fs' ≡ₚ r :: rest).
Proof.
  intros Hm. pose proof (move_perm _ _ _ _ _ _ Hm) as Hp.
  destruct Hm; [left | left | right; left | right; right | right; right]; done.
Qed.

(** For [optimal], the page that leaves is used latest. *)
Lemma optimal_move_cases σ r fs a fs' b :
  move cap r fs a fs' b → uses Optimal σ fs a →
  (b = false ∧ r ∈ fs ∧ fs' ≡ₚ fs) ∨
  (b = true ∧ (r ∉ fs) ∧ (Z.of_nat (length fs) < cap)%Z ∧ fs' ≡ₚ r :: fs) ∨
  (b = true ∧ (r ∉ fs) ∧ Z.of_nat (length fs) = cap ∧
   ∃ z rest, fs ≡ₚ z :: rest ∧ fs' ≡ₚ r :: rest ∧
     ∀ y, y ∈ fs → dist_le (next_use σ y) (next_use σ z)).
Proof.
  intros Hm Hu. destruct Hm as [Hin|fs0 Hin Hrm|Hni Hlt|k Hni Hfull Hk|z rest Hni Hfull Heq];
    try done.
  - by left.
  - right; left. repeat split; try done. by rewrite <-Permutation_cons_append.
  - right; right. repeat split; try done.
    destruct Hu as (z & Hz & Hle & _). exists z, (delete k fs).
    split; [by apply delete_Permutation|]. split.
    + rewrite (delete_Permutation (<[k:=r]> fs) k r)
        by (by apply list_lookup_insert_eq).
      by rewrite delete_insert_same.
    + intros y [j Hj]%list_elem_of_lookup_1. eauto.
Qed.

Lemma ahead_perm σ M A d :
  M ≡ₚ A → NoDup M → (Z.of_nat (length M) ≤ cap)%Z → ahead cap σ M A d.
Proof.
  intros Hp Hnd Hle. repeat split; try done.
  - by rewrite <-Hp.
  - by apply Permutation_length.
  - intros t. rewrite Hp. lia.
Qed.

(** The list that receives [r] in place of [z]. *)
Lemma cnt_far_swapped r σ t fs fs' z rest :
  r ∉ fs → fs ≡ₚ z :: rest → fs' ≡ₚ r :: rest →
  cnt_far σ t fs' = ind (far σ t r) + cnt_far σ t rest ∧
  cnt_far (r :: σ) (S t) fs = ind (far σ t z) + cnt_far σ t rest.
Proof.
  intros Hni H1 H2. split.
  - by rewrite H2, cnt_far_cons.
  - by rewrite cnt_far_shift, H1, cnt_far_cons.
Qed.

(** Once the page used latest is no longer far, nobody is. *)
Lemma cnt_far_latest σ t fs z rest :
  fs ≡ₚ z :: rest →
  (∀ y, y ∈ fs → dist_le (next_use σ y) (next_use σ z)) →
  ind (far σ t z) = 1 ∨ cnt_far σ t rest = 0.
Proof.
  intros Hp Hlatest. unfold ind. destruct (decide (far σ t z)) as [|Hz]; [by left|].
  right. apply cnt_far_none. intros y Hy Hf. apply Hz.
  eapply far_latest; [|exact Hf]. apply Hlatest. rewrite Hp. by right.
Qed.

Lemma belady_step r σ M A d aM M' bM aA A' bA :
  ahead cap (r :: σ) M A d →
  move cap r M aM M' bM → uses Optimal σ M aM →
  move cap r A aA A' bA →
  ∃ d', ahead cap σ M' A' d' ∧ Nat.b2n bM + d' ≤ Nat.b2n bA + d.
Proof.
  intros (HndM & HndA & Hlen & Hle & Hfree & Hcnt) HmM HuM HmA.
  pose proof (move_NoDup _ _ _ _ _ _ HmM HndM) as HndM'.
  pose proof (move_NoDup _ _ _ _ _ _ HmA HndA) as HndA'.
  pose proof (move_length _ _ _ _ _ _ HmM Hle) as Hle'.
  destruct (optimal_move_cases _ _ _ _ _ _ HmM HuM)
    as [(-> & HinM & HpM) | [(-> & HniM & HltM & HpM)
       | (-> & HniM & HfullM & zM & restM & HpM1 & HpM2 & Hlatest)]];
  destruct (move_cases _ _ _ _ _ HmA)
    as [(-> & HinA & HpA) | [(-> & HniA & HltA & HpA)
       | (-> & HniA & HfullA & zA & restA & HpA1 & HpA2)]];
  simpl.
  - (* both hit *)
    exists d. split; [|lia]. repeat split; try done.
    + apply Permutation_length in HpM, HpA. lia.
    + intros Hlt. rewrite HpM, HpA. apply Hfree.
      apply Permutation_length in HpM. lia.
    + intros t. rewrite HpM, HpA.
      rewrite (cnt_far_resident r σ t M), (cnt_far_resident r σ t A) by done.
      specialize (Hcnt (S t)). lia.
  - (* optimal hits, the other fills *)
    exfalso. apply HniA. rewrite <-Hfree; [done | lia].
  - (* optimal hits, the other evicts *)
    exists (S d). split; [|lia]. repeat split; try done.
    + apply Permutation_length in HpM, HpA1, HpA2. simpl in *. lia.
    + intros Hlt. apply Permutation_length in HpM. lia.
    + intros t. rewrite HpM, (cnt_far_resident r σ t M) by done.
      destruct (cnt_far_swapped r σ t A A' zA restA) as [-> E]; try done.
      specialize (Hcnt (S t)). pose proof (ind_le_1 (far σ t zA)). lia.
  - (* optimal fills, the other hits *)
    exfalso. apply HniM. rewrite Hfree; [done | lia].
  - (* both fill *)
    exists d. split; [|lia]. apply ahead_perm; try done.
    rewrite HpM, HpA, Hfree; [done | lia].
  - (* optimal fills, the other evicts *)
    lia.
  - (* optimal evicts, the other hits *)
    assert (1 ≤ d) as Hd.
    { apply elem_of_Permutation in HinA as [A0 HA0].
      pose proof HndA as HndA0. rewrite HA0 in HndA0.
      apply NoDup_cons in HndA0 as [HrA0 _].
      specialize (Hcnt 1). rewrite HA0, cnt_far_head in Hcnt.
      rewrite !cnt_far_shift, !cnt_far_0 in Hcnt by done.
      apply Permutation_length in HA0. simpl in *. lia. }
    exists (d - 1). split; [|lia]. repeat split; try done.
    + apply Permutation_length in HpA, HpM1, HpM2. simpl in *. lia.
    + intros Hlt. apply Permutation_length in HpM1, HpM2. simpl in *. lia.
    + intros t. rewrite HpA, (cnt_far_resident r σ t A) by done.
      destruct (cnt_far_swapped r σ t M M' zM restM) as [-> E]; try done.
      specialize (Hcnt (S t)).
      destruct (cnt_far_latest σ t M zM restM) as [H1|H0]; try done; lia.
  - (* optimal evicts, the other fills *)
    lia.
  - (* both evict *)
    exists d. split; [|lia]. repeat split; try done.
    + apply Permutation_length in HpA1, HpA2, HpM1, HpM2. simpl in *. lia.
    + intros Hlt. apply Permutation_length in HpM1, HpM2. simpl in *. lia.
    + intros t.
      destruct (cnt_far_swapped r σ t M M' zM restM) as [-> EM]; try done.
      destruct (cnt_far_swapped r σ t A A' zA restA) as [-> EA]; try done.
      specialize (Hcnt (S t)). pose proof (ind_le_1 (far σ t zA)).
      destruct (cnt_far_latest σ t M zM restM) as [H1|H0]; try done; lia.
Qed.

(** From any pair of frame lists where [optimal] is ahead up to [d]
    exceptions, it faults at most [d] times more than the other
    policy on the rest of the reference string. *)
Lemma belady_chain P σ M A d trO trA Me Ae :
  ahead cap σ M A d →
  chain Optimal cap M σ trO Me →
  chain P cap A σ trA Ae →
  fault_count trO ≤ fault_count trA + d.
Proof.
  intros Hah HO. revert A d trA Ae Hah.
  induction HO as [|M r aM M' bM σ trO Me HmM HuM HO IH]; intros A d trA Ae Hah HA.
  - unfold fault_count. simpl. lia.
  - inversion HA as [|? ? aA A' bA ? trA' ? HmA HuA HA']; subst.
    destruct (belady_step r σ M A d aM M' bM aA A' bA Hah HmM HuM HmA)
      as (d' & Hah' & Hd).
    specialize (IH A' d' trA' Ae Hah' HA').
    rewrite !fault_count_cons. lia.
Qed.

End belady.

(** C2. With at least one frame, [optimal] never reports more faults than
    [fifo], [lru], [second_chance] or [clock] on the same reference
    string. *)
Theorem optimal_is_optimal σ cap :
  (1 ≤ cap)%Z →
  ∃ ro rf rl rs rc,
    optimal σ cap = Ret ro ∧ fifo σ cap = Ret rf ∧ lru σ cap = Ret rl ∧
    second_chance σ cap = Ret rs ∧ clock σ cap = Ret rc ∧
    (faults ro ≤ faults rf)%Z ∧ (faults ro ≤ faults rl)%Z ∧
    (faults ro ≤ faults rs)%Z ∧ (faults ro ≤ faults rc)%Z.
Proof.
  intros Hcap.
  assert (∀ P, ∃ ro r, optimal σ cap = Ret ro ∧ ALGORITHMS P σ cap = Ret r ∧
                       (faults ro ≤ faults r)%Z) as H.
  { intros P.
    destruct (run_chain cap Hcap Optimal σ) as (trO & Me & EO & HO).
    destruct (run_chain cap Hcap P σ) as (trA & Ae & EA & HA).
    eexists _, _. split; [exact EO|]. split; [exact EA|]. simpl.
    assert (ahead cap σ [] [] 0) as Hah.
    { apply ahead_perm; [done | constructor | simpl; lia]. }
    pose proof (belady_chain cap P σ [] [] 0 trO trA Me Ae Hah HO HA). lia. }
  destruct (H FIFO) as (ro & rf & EO & Ef & Hf).
  destruct (H LRU) as (ro1 & rl & EO1 & El & Hl).
  destruct (H SecondChance) as (ro2 & rs & EO2 & Es & Hs).
  destruct (H Clock) as (ro3 & rc & EO3 & Ec & Hc).
  rewrite EO in EO1, EO2, EO3.
  injection EO1 as <-. injection EO2 as <-. injection EO3 as <-.
  exists ro, rf, rl, rs, rc. done.
Qed.

Lemma optimal_is_optimal_witness :
  ∃ ro rf rl rs rc,
    optimal ref_string 3 = Ret ro ∧ fifo ref_string 3 = Ret rf ∧
    lru ref_string 3 = Ret rl ∧
    second_chance ref_string 3 = Ret rs ∧ clock ref_string 3 = Ret rc ∧
    (faults ro ≤ faults rf)%Z ∧ (faults ro ≤ faults rl)%Z ∧
    (faults ro ≤ faults rs)%Z ∧ (faults ro ≤ faults rc)%Z.
Proof. apply (optimal_is_optimal ref_string 3). lia. Defined.

(** ** Further properties of the traces *)

Section transitions.
Context (cap : Z).
Implicit Types (fs : list Z) (p : Z) (a : kind) (b : bool).

(** The flag of a move says whether the page was absent. *)
Lemma move_flag p fs a fs' b : move cap p fs a fs' b → (b = true ↔ p ∉ fs).
Proof. intros []; split; done. Qed.

(** After a move the page is resident. *)
Lemma move_resident p fs a fs' b : move cap p fs a fs' b → p ∈ fs'.
Proof.
  intros [Hin|fs0 Hin Hrm|Hni Hlt|k Hni Hfull Hk|z rest Hni Hfull Heq].
  - done.
  - apply elem_of_app. right. left.
  - apply elem_of_app. right. left.
  - by apply list_elem_of_insert.
  - apply elem_of_app. right. left.
Qed.

(** What [l.remove(x)] leaves: the list around the first [x]. *)
Lemma remove_first_split x l l' :
  remove_first x l = Some l' →
  ∃ l1 l2, l = l1 ++ x :: l2 ∧ l' = l1 ++ l2 ∧ x ∉ l1.
Proof.
  revert l'. induction l as [|y l IH]; intros l'; simpl; [done|].
  case_bool_decide as Hy.
  - intros [= <-]. subst. exists [], l. split; [done|]. split; [done|].
    apply not_elem_of_nil.
  - rewrite fmap_Some. intros (l0 & Hl0 & ->).
    destruct (IH _ Hl0) as (l1 & l2 & -> & -> & Hni).
    exists (y :: l1), l2. split; [done|]. split; [done|].
    apply not_elem_of_cons. split; [congruence | done].
Qed.

(** Consecutive step records fit together. *)
Lemma chain_linked P fs σ tr fs' :
  chain P cap fs σ tr fs' →
  (∀ s, tr !! 0 = Some s → frames_before s = fs) ∧
  (∀ i s s', tr !! i = Some s → tr !! S i = Some s' →
     frames_before s' = frames_after s).
Proof.
  induction 1 as [|fs p a fs1 b σ tr fs2 Hm Hu Hch [IH0 IH]].
  - split; intros; done.
  - split.
    + intros s [= <-]. done.
    + intros [|i] s s' Hs Hs'; simpl in *.
      * injection Hs as <-. simpl. by apply IH0.
      * by eapply IH.
Qed.

End transitions.

(** ** Faults on full frames *)

(** The traces of the three policies that replace in place, record by
    record: one record per reference, starting from empty frames, each
    record starting where the previous one ended; the flag is set
    exactly when the page is absent, a hit leaves the frames alone, a
    fault with a free frame appends, and the frames never exceed the
    capacity.  So a reference to an absent page with all frames taken
    is always recorded as a fault on full frames. *)
Lemma in_place_records P cap σ tr fs :
  (0 ≤ cap)%Z →
  P = Optimal ∨ P = SecondChance ∨ P = Clock →
  chain P cap [] σ tr fs →
  page <$> tr = σ ∧
  (∀ s, tr !! 0 = Some s → frames_before s = []) ∧
  (∀ i s s', tr !! i = Some s → tr !! S i = Some s' →
     frames_before s' = frames_after s) ∧
  ∀ i s, tr !! i = Some s →
    (page_fault s = true ↔ page s ∉ frames_before s) ∧
    (page_fault s = false → frames_after s = frames_before s) ∧
    (page_fault s = true → (Z.of_nat (length (frames_before s)) < cap)%Z →
       frames_after s = frames_before s ++ [page s]) ∧
    (Z.of_nat (length (frames_before s)) ≤ cap)%Z.
Proof.
  intros Hcap HP Hch.
  split; [by eapply chain_pages|].
  destruct (chain_linked cap P [] σ tr fs Hch) as [H0 Hlink].
  split; [done|]. split; [done|].
  intros i s Hs.
  destruct (chain_lookup P cap [] σ tr fs i s Hch) as (Hnd & Hle & a & Hm & Hu);
    [constructor | simpl; lia | done |].
  split; [by eapply move_flag|]. split; [|split; [|done]].
  - intros Hf.
    destruct Hm as [Hin|fs0 Hin Hrm|Hni Hlt|k Hni Hfull Hk|z rest Hni Hfull Heq];
      try done.
    by destruct HP as [-> | [-> | ->]].
  - intros Hf Hlt.
    destruct Hm as [Hin|fs0 Hin Hrm|Hni Hlt'|k Hni Hfull Hk|z rest Hni Hfull Heq];
      try done; lia.
Qed.

(** C7. In [optimal], at every fault on full frames (position [i] of the
    reference string), the slot overwritten holds the resident page whose
    next use in the references strictly after [i] is furthest away, a
    page never used again counting as infinitely far, and among equally
    far pages it is the first in frame order.  Such faults are all
    recorded: the trace has one record per reference, in order, starts
    from empty frames, each record continues the previous one, the flag
    is set exactly when the page is absent, a hit leaves the frames
    alone, a fault with a free frame appends the page, and the frames
    never exceed the capacity. *)
Theorem optimal_evicts_furthest σ cap :
  (1 ≤ cap)%Z →
  ∃ r, optimal σ cap = Ret r ∧
    (∀ i s, steps r !! i = Some s → page_fault s = true →
      Z.of_nat (length (frames_before s)) = cap →
      ∃ k, furthest (drop (S i) σ) (frames_before s) k ∧
           frames_after s = <[k := page s]> (frames_before s)) ∧
    page <$> steps r = σ ∧
    (∀ s, steps r !! 0 = Some s → frames_before s = []) ∧
    (∀ i s s', steps r !! i = Some s → steps r !! S i = Some s' →
       frames_before s' = frames_after s) ∧
    ∀ i s, steps r !! i = Some s →
      (page_fault s = true ↔ page s ∉ frames_before s) ∧
      (page_fault s = false → frames_after s = frames_before s) ∧
      (page_fault s = true → (Z.of_nat (length (frames_before s)) < cap)%Z →
         frames_after s = frames_before s ++ [page s]) ∧
      (Z.of_nat (length (frames_before s)) ≤ cap)%Z.
Proof.
  intros Hcap. destruct (run_chain cap Hcap Optimal σ) as (tr & fs & E & Hch).
  eexists. split; [exact E|]. simpl. split.
  - intros i s Hs Hf Hfull.
    destruct (chain_lookup Optimal cap [] σ tr fs i s Hch) as (Hnd & Hle & a & Hm & Hu);
      [constructor | simpl; lia | done |].
    destruct Hm as [Hin|fs0 Hin Hrm|Hni Hlt|k Hni _ Hk|z rest Hni _ Heq];
      try done; try lia.
    exists k. done.
  - apply (in_place_records Optimal cap σ tr fs); [lia | by left | done].
Qed.

(** On the sample string with three frames the fourth reference, to
    page 4, finds the frames [1,2,3] full: it is recorded as a fault,
    and the page evicted is 3 (slot 2), whose next use lies furthest
    ahead in [1,2,5,1,2,3,4,5]. *)
Lemma optimal_evicts_furthest_witness :
  ∃ r, optimal ref_string 3 = Ret r ∧
    steps r !! 3 = Some (Step 4%Z [1; 2; 3]%Z [1; 2; 4]%Z true) ∧
    furthest [1; 2; 5; 1; 2; 3; 4; 5]%Z [1; 2; 3]%Z 2 ∧
    page <$> steps r = ref_string.
Proof.
  destruct (optimal_evicts_furthest ref_string 3 ltac:(lia))
    as (r & E & Hev & Hpages & _).
  exists r. split; [exact E|].
  assert (steps r !! 3 = Some (Step 4%Z [1; 2; 3]%Z [1; 2; 4]%Z true)) as H3.
  { vm_compute in E. injection E as <-. reflexivity. }
  split; [exact H3|]. split; [|exact Hpages].
  destruct (Hev 3 _ H3 eq_refl eq_refl) as (k & Hk & Hins).
  simpl in Hk, Hins.
  destruct k as [|[|[|k]]]; simpl in Hins; try discriminate Hins.
  exact Hk.
Defined.

(** C10. In [optimal], [second_chance] and [clock], a fault on full
    frames overwrites one slot in place: [frames_after] is
    [frames_before] with the new page written over the evicted page in
    some slot [k]; the two lists differ at [k] and nowhere else.  Such
    faults are all recorded: the trace has one record per reference, in
    order, starts from empty frames, each record continues the previous
    one, the flag is set exactly when the page is absent, a hit leaves
    the frames alone, a fault with a free frame appends the page, and
    the frames never exceed the capacity. *)
Theorem full_fault_overwrites_one_slot P σ cap :
  (1 ≤ cap)%Z →
  P = Optimal ∨ P = SecondChance ∨ P = Clock →
  ∃ r, ALGORITHMS P σ cap = Ret r ∧
    (∀ s, s ∈ steps r → page_fault s = true →
      Z.of_nat (length (frames_before s)) = cap →
      ∃ k evicted,
        frames_before s !! k = Some evicted ∧
        evicted ≠ page s ∧
        frames_after s = <[k := page s]> (frames_before s) ∧
        frames_after s !! k = Some (page s) ∧
        length (frames_after s) = length (frames_before s) ∧
        ∀ j, j ≠ k → frames_after s !! j = frames_before s !! j) ∧
    page <$> steps r = σ ∧
    (∀ s, steps r !! 0 = Some s → frames_before s = []) ∧
    (∀ i s s', steps r !! i = Some s → steps r !! S i = Some s' →
       frames_before s' = frames_after s) ∧
    ∀ i s, steps r !! i = Some s →
      (page_fault s = true ↔ page s ∉ frames_before s) ∧
      (page_fault s = false → frames_after s = frames_before s) ∧
      (page_fault s = true → (Z.of_nat (length (frames_before s)) < cap)%Z →
         frames_after s = frames_before s ++ [page s]) ∧
      (Z.of_nat (length (frames_before s)) ≤ cap)%Z.
Proof.
  intros Hcap HP. destruct (run_chain cap Hcap P σ) as (tr & fs & E & Hch).
  eexists. split; [exact E|]. simpl. split.
  - intros s Hs Hf Hfull.
    destruct (chain_elem P cap [] σ tr fs s Hch) as (Hnd & Hle & a & fut & Hm & Hu);
      [constructor | simpl; lia | done |].
    destruct Hm as [Hin|fs0 Hin Hrm|Hni Hlt|k Hni _ Hk|z rest Hni _ Heq];
      try done; try lia.
    + destruct (lookup_lt_is_Some_2 _ _ Hk) as [z Hz]. exists k, z.
      split; [done|]. split.
      { intros ->. apply Hni. by eapply list_elem_of_lookup_2. }
      split; [done|]. split; [by apply list_lookup_insert_eq|].
      split; [by rewrite length_insert|].
      intros j Hj. by apply list_lookup_insert_ne.
    + by destruct HP as [-> | [-> | ->]].
  - apply (in_place_records P cap σ tr fs); [lia | done | done].
Qed.

(** On the sample string with three frames the fourth reference, to
    page 4, finds the frames [1,2,3] full under each of the three
    policies and is recorded as a fault: [optimal] writes 4 over page 3
    in slot 2, [second_chance] and [clock] write it over page 1 in
    slot 0, and the other two slots keep their pages. *)
Lemma full_fault_overwrites_one_slot_witness :
  (∃ r, ALGORITHMS Optimal ref_string 3 = Ret r ∧
     page <$> steps r = ref_string ∧
     Step 4%Z [1; 2; 3]%Z [1; 2; 4]%Z true ∈ steps r ∧
     ∃ k evicted, k = 2 ∧ evicted = 3%Z ∧
       [1; 2; 3]%Z !! k = Some evicted ∧
       [1; 2; 4]%Z = <[k := 4%Z]> [1; 2; 3]%Z ∧
       ∀ j, j ≠ k → [1; 2; 4]%Z !! j = [1; 2; 3]%Z !! j) ∧
  (∃ r, ALGORITHMS SecondChance ref_string 3 = Ret r ∧
     page <$> steps r = ref_string ∧
     Step 4%Z [1; 2; 3]%Z [4; 2; 3]%Z true ∈ steps r ∧
     ∃ k evicted, k = 0 ∧ evicted = 1%Z ∧
       [1; 2; 3]%Z !! k = Some evicted ∧
       [4; 2; 3]%Z = <[k := 4%Z]> [1; 2; 3]%Z ∧
       ∀ j, j ≠ k → [4; 2; 3]%Z !! j = [1; 2; 3]%Z !! j) ∧
  (∃ r, ALGORITHMS Clock ref_string 3 = Ret r ∧
     page <$> steps r = ref_string ∧
     Step 4%Z [1; 2; 3]%Z [4; 2; 3]%Z true ∈ steps r ∧
     ∃ k evicted, k = 0 ∧ evicted = 1%Z ∧
       [1; 2; 3]%Z !! k = Some evicted ∧
       [4; 2; 3]%Z = <[k := 4%Z]> [1; 2; 3]%Z ∧
       ∀ j, j ≠ k → [4; 2; 3]%Z !! j = [1; 2; 3]%Z !! j).
Proof.
  split; [|split].
  - destruct (full_fault_overwrites_one_slot Optimal ref_string 3
                ltac:(lia) ltac:(by left)) as (r & E & Hev & Hpages & _).
    exists r. split; [exact E|]. split; [exact Hpages|].
    assert (Step 4%Z [1; 2; 3]%Z [1; 2; 4]%Z true ∈ steps r) as Hin.
    { vm_compute in E. injection E as <-.
      apply (list_elem_of_lookup_2 _ 3). reflexivity. }
    split; [exact Hin|].
    destruct (Hev _ Hin eq_refl eq_refl) as (k & z & Hz & _ & Hins & _ & _ & Hrest).
    simpl in Hz, Hins, Hrest.
    destruct k as [|[|[|k]]]; simpl in Hins; try discriminate Hins.
    exists 2, z. simpl in Hz. injection Hz as <-. done.
  - destruct (full_fault_overwrites_one_slot SecondChance ref_string 3
                ltac:(lia) ltac:(right; by left)) as (r & E & Hev & Hpages & _).
    exists r. split; [exact E|]. split; [exact Hpages|].
    assert (Step 4%Z [1; 2; 3]%Z [4; 2; 3]%Z true ∈ steps r) as Hin.
    { vm_compute in E. injection E as <-.
      apply (list_elem_of_lookup_2 _ 3). reflexivity. }
    split; [exact Hin|].
    destruct (Hev _ Hin eq_refl eq_refl) as (k & z & Hz & _ & Hins & _ & _ & Hrest).
    simpl in Hz, Hins, Hrest.
    destruct k as [|[|[|k]]]; simpl in Hins; try discriminate Hins.
    exists 0, z. simpl in Hz. injection Hz as <-. done.
  - destruct (full_fault_overwrites_one_slot Clock ref_string 3
                ltac:(lia) ltac:(right; by right)) as (r & E & Hev & Hpages & _).
    exists r. split; [exact E|]. split; [exact Hpages|].
    assert (Step 4%Z [1; 2; 3]%Z [4; 2; 3]%Z true ∈ steps r) as Hin.
    { vm_compute in E. injection E as <-.
      apply (list_elem_of_lookup_2 _ 3). reflexivity. }
    split; [exact Hin|].
    destruct (Hev _ Hin eq_refl eq_refl) as (k & z & Hz & _ & Hins & _ & _ & Hrest).
    simpl in Hz, Hins, Hrest.
    destruct k as [|[|[|k]]]; simpl in Hins; try discriminate Hins.
    exists 0, z. simpl in Hz. injection Hz as <-. done.
Defined.

(** With a single frame a move is forced. *)
Lemma move_single_frame (p : Z) (fs : list Z) a fs' b :
  move 1 p fs a fs' b → length fs ≤ 1 → fs' = [p].
Proof.
  intros [Hin|fs0 Hin Hrm|Hni Hlt|k Hni Hfull Hk|z rest Hni Hfull ->] Hle.
  - destruct fs as [|x [|??]]; simpl in Hle; try lia.
    + by apply elem_of_nil in Hin.
    + by apply list_elem_of_singleton in Hin as ->.
  - destruct fs as [|x [|??]]; simpl in Hle, Hrm; try lia; [done|].
    apply list_elem_of_singleton in Hin as ->.
    rewrite bool_decide_eq_true_2 in Hrm by done. by injection Hrm as <-.
  - destruct fs; simpl in *; [done | lia].
  - destruct fs as [|x [|??]]; simpl in Hle, Hk; try lia.
    by destruct k; [|lia].
  - destruct rest; simpl in *; [done | lia].
Qed.

Lemma chain_single_frame P Q (fs : list Z) σ tr1 tr2 e1 e2 :
  length fs ≤ 1 →
  chain P 1 fs σ tr1 e1 → chain Q 1 fs σ tr2 e2 → tr1 = tr2.
Proof.
  intros Hle H1. revert tr2 e2 Hle.
  induction H1 as [|fs p a fs1 b σ tr1 e1 Hm Hu Hch IH]; intros tr2 e2 Hle H2.
  - by inversion H2.
  - inversion H2 as [|? ? a' fs1' b' ? tr2' ? Hm' Hu' Hch']; subst.
    pose proof (move_single_frame _ _ _ _ _ Hm Hle) as ->.
    pose proof (move_single_frame _ _ _ _ _ Hm' Hle) as ->.
    assert (b = b') as <-.
    { apply move_flag in Hm, Hm'. destruct b, b'; try done.
      - destruct Hm as [Hm _], Hm' as [_ Hm']. by specialize (Hm' (Hm eq_refl)).
      - destruct Hm as [_ Hm], Hm' as [Hm' _]. by specialize (Hm (Hm' eq_refl)). }
    f_equal. eapply IH; [simpl; lia | done].
Qed.

(** X1. The trace is linked: with at least one frame, the first step
    record of every policy starts from empty frames, and each later
    record's [frames_before] is the [frames_after] of the record before
    it. *)
Theorem trace_is_linked P σ cap :
  (1 ≤ cap)%Z →
  ∃ r, ALGORITHMS P σ cap = Ret r ∧
    (∀ s, steps r !! 0 = Some s → frames_before s = []) ∧
    (∀ i s s', steps r !! i = Some s → steps r !! S i = Some s' →
       frames_before s' = frames_after s).
Proof.
  intros Hcap. destruct (run_chain cap Hcap P σ) as (tr & fs & E & Hch).
  eexists. split; [exact E|]. simpl. by eapply chain_linked.
Qed.

Lemma trace_is_linked_witness :
  ∃ r, ALGORITHMS FIFO ref_string 3 = Ret r ∧
    (∀ s, steps r !! 0 = Some s → frames_before s = []) ∧
    (∀ i s s', steps r !! i = Some s → steps r !! S i = Some s' →
       frames_before s' = frames_after s).
Proof. apply (trace_is_linked FIFO ref_string 3). lia. Defined.

(** X2. In every step record of every policy the fault flag is set
    exactly when the page was not in [frames_before], and the page is in
    [frames_after] whether it faulted or not. *)
Theorem fault_iff_not_resident P σ cap :
  (1 ≤ cap)%Z →
  ∃ r, ALGORITHMS P σ cap = Ret r ∧
    ∀ s, s ∈ steps r →
      (page_fault s = true ↔ page s ∉ frames_before s) ∧
      page s ∈ frames_after s.
Proof.
  intros Hcap. destruct (run_chain cap Hcap P σ) as (tr & fs & E & Hch).
  eexists. split; [exact E|]. simpl. intros s Hs.
  destruct (chain_elem P cap [] σ tr fs s Hch) as (_ & _ & a & fut & Hm & _);
    [constructor | simpl; lia | done |].
  split; [by eapply move_flag | by eapply move_resident].
Qed.

Lemma fault_iff_not_resident_witness :
  ∃ r, ALGORITHMS Optimal ref_string 3 = Ret r ∧
    ∀ s, s ∈ steps r →
      (page_fault s = true ↔ page s ∉ frames_before s) ∧
      page s ∈ frames_after s.
Proof. apply (fault_iff_not_resident Optimal ref_string 3). lia. Defined.

(** X3. While a frame is free nothing is evicted: in every policy a
    fault with fewer than [frame_size] resident pages appends the page
    to the frame list. *)
Theorem fault_with_free_frame_appends P σ cap :
  (1 ≤ cap)%Z →
  ∃ r, ALGORITHMS P σ cap = Ret r ∧
    ∀ s, s ∈ steps r → page_fault s = true →
      (Z.of_nat (length (frames_before s)) < cap)%Z →
      frames_after s = frames_before s ++ [page s].
Proof.
  intros Hcap. destruct (run_chain cap Hcap P σ) as (tr & fs & E & Hch).
  eexists. split; [exact E|]. simpl. intros s Hs Hf Hfree.
  destruct (chain_elem P cap [] σ tr fs s Hch) as (_ & _ & a & fut & Hm & _);
    [constructor | simpl; lia | done |].
  destruct Hm as [Hin|fs0 Hin Hrm|Hni Hlt|k Hni Hfull Hk|z rest Hni Hfull Heq];
    try done; lia.
Qed.

Lemma fault_with_free_frame_appends_witness :
  ∃ r, ALGORITHMS SecondChance ref_string 3 = Ret r ∧
    ∀ s, s ∈ steps r → page_fault s = true →
      (Z.of_nat (length (frames_before s)) < 3)%Z →
      frames_after s = frames_before s ++ [page s].
Proof. apply (fault_with_free_frame_appends SecondChance ref_string 3). lia. Defined.

(** X4. [fifo] and [lru] evict from the front: on a fault with full
    frames the first entry of [frames_before] is dropped, the others
    keep their order, and the page is appended at the back. *)
Theorem queue_evicts_front P σ cap :
  (1 ≤ cap)%Z → P = FIFO ∨ P = LRU →
  ∃ r, ALGORITHMS P σ cap = Ret r ∧
    ∀ s, s ∈ steps r → page_fault s = true →
      Z.of_nat (length (frames_before s)) = cap →
      ∃ evicted rest,
        frames_before s = evicted :: rest ∧
        frames_after s = rest ++ [page s].
Proof.
  intros Hcap HP. destruct (run_chain cap Hcap P σ) as (tr & fs & E & Hch).
  eexists. split; [exact E|]. simpl. intros s Hs Hf Hfull.
  destruct (chain_elem P cap [] σ tr fs s Hch) as (_ & _ & a & fut & Hm & Hu);
    [constructor | simpl; lia | done |].
  destruct Hm as [Hin|fs0 Hin Hrm|Hni Hlt|k Hni _ Hk|z rest Hni _ Heq];
    try done; try lia.
  - by destruct HP as [-> | ->].
  - eauto.
Qed.

Lemma queue_evicts_front_witness :
  ∃ r, ALGORITHMS FIFO ref_string 3 = Ret r ∧
    ∀ s, s ∈ steps r → page_fault s = true →
      Z.of_nat (length (frames_before s)) = 3%Z →
      ∃ evicted rest,
        frames_before s = evicted :: rest ∧
        frames_after s = rest ++ [page s].
Proof. apply (queue_evicts_front FIFO ref_string 3); [lia | by left]. Defined.

(** X5. A hit in [lru] moves the page to the back of the frame list and
    leaves the other pages in their order. *)
Theorem lru_hit_moves_to_back σ cap :
  (1 ≤ cap)%Z →
  ∃ r, lru σ cap = Ret r ∧
    ∀ s, s ∈ steps r → page_fault s = false →
      ∃ l1 l2,
        frames_before s = l1 ++ page s :: l2 ∧
        frames_after s = l1 ++ l2 ++ [page s].
Proof.
  intros Hcap. destruct (run_chain cap Hcap LRU σ) as (tr & fs & E & Hch).
  eexists. split; [exact E|]. simpl. intros s Hs Hhit.
  destruct (chain_elem LRU cap [] σ tr fs s Hch) as (_ & _ & a & fut & Hm & Hu);
    [constructor | simpl; lia | done |].
  destruct Hm as [Hin|fs0 Hin Hrm|Hni Hlt|k Hni _ Hk|z rest Hni _ Heq]; try done.
  destruct (remove_first_split _ _ _ Hrm) as (l1 & l2 & E1 & -> & _).
  exists l1, l2. by rewrite <-app_assoc.
Qed.

Lemma lru_hit_moves_to_back_witness :
  ∃ r, lru ref_string 3 = Ret r ∧
    ∀ s, s ∈ steps r → page_fault s = false →
      ∃ l1 l2,
        frames_before s = l1 ++ page s :: l2 ∧
        frames_after s = l1 ++ l2 ++ [page s].
Proof. apply (lru_hit_moves_to_back ref_string 3). lia. Defined.

(** X6. With a single frame there is nothing to choose: the five
    policies return the same result on every reference string. *)
Theorem single_frame_policies_agree P Q σ :
  ALGORITHMS P σ 1 = ALGORITHMS Q σ 1.
Proof.
  destruct (run_chain 1 ltac:(lia) P σ) as (tr1 & e1 & -> & H1).
  destruct (run_chain 1 ltac:(lia) Q σ) as (tr2 & e2 & -> & H2).
  by rewrite (chain_single_frame P Q [] σ tr1 tr2 e1 e2) by (simpl; lia || done).
Qed.

(** ** Frames and the references made so far *)

Section prefixes.
Context (P : policy) (cap : Z).
Implicit Types (fs pre σ l : list Z) (p x : Z).

(** An invariant between the references consumed and the frames holds at
    both ends of every step record. *)
Lemma chain_prefix_inv (J : list Z → list Z → Prop) :
  (∀ pre p fs a fs' b future,
     J pre fs → move cap p fs a fs' b → uses P future fs a → J (pre ++ [p]) fs') →
  ∀ fs σ tr fs', chain P cap fs σ tr fs' →
  ∀ pre i s, J pre fs → tr !! i = Some s →
    J (pre ++ take i σ) (frames_before s) ∧
    J (pre ++ take (S i) σ) (frames_after s).
Proof.
  intros Hstep fs σ tr fs'.
  induction 1 as [|fs p a fs1 b σ tr fs2 Hm Hu Hch IH]; intros pre i s HJ Hi; [done|].
  destruct i as [|i]; simpl in Hi.
  - injection Hi as <-. simpl. rewrite take_0, app_nil_r. split; [done|]. eauto.
  - specialize (IH (pre ++ [p]) i s (Hstep _ _ _ _ _ _ _ HJ Hm Hu) Hi).
    rewrite <-!app_assoc in IH. done.
Qed.

Lemma move_elements p fs a fs' b :
  move cap p fs a fs' b → ∀ x, x ∈ fs' → x = p ∨ x ∈ fs.
Proof.
  intros Hm x Hx. pose proof (move_perm _ _ _ _ _ _ Hm) as Hp.
  destruct a.
  - rewrite Hp in Hx. by right.
  - rewrite Hp in Hx. by right.
  - rewrite Hp in Hx. by apply elem_of_cons in Hx.
  - destruct Hp as (z & rest & H1 & H2). rewrite H2 in Hx.
    apply elem_of_cons in Hx as [?|Hx]; [by left|]. right. rewrite H1. by right.
  - destruct Hp as (z & rest & H1 & H2). rewrite H2 in Hx.
    apply elem_of_cons in Hx as [?|Hx]; [by left|]. right. rewrite H1. by right.
Qed.

Lemma resident_of_step pre p fs a fs' b :
  resident_of cap pre fs → move cap p fs a fs' b → resident_of cap (pre ++ [p]) fs'.
Proof.
  intros (Hnd & Hle & Hsub & Hall) Hm.
  split; [by eapply move_NoDup|]. split; [by eapply move_length|]. split.
  - intros x Hx. apply elem_of_app.
    destruct (move_elements _ _ _ _ _ Hm x Hx) as [->|?]; [right; left | left; eauto].
  - intros Hfree x Hx.
    pose proof (move_resident _ _ _ _ _ _ Hm) as Hp.
    pose proof (move_perm _ _ _ _ _ _ Hm) as Hperm.
    apply elem_of_app in Hx as [Hx|Hx%list_elem_of_singleton]; [|by subst].
    destruct Hm as [Hin|fs0 Hin Hrm|Hni Hlt|k Hni Hfull Hk|z rest Hni Hfull ->].
    + by apply Hall.
    + rewrite Hperm. apply Hall; [|done].
      apply Permutation_length in Hperm. lia.
    + rewrite Hperm. right. by apply Hall.
    + rewrite length_insert in Hfree. lia.
    + rewrite length_app in Hfree. simpl in *. lia.
Qed.

End prefixes.

Section distinct_pages.
Implicit Types (l k fs : list Z) (p x : Z).

Lemma remove_dups_snoc l p :
  remove_dups (l ++ [p]) = filter (λ x, x ≠ p) (remove_dups l) ++ [p].
Proof.
  induction l as [|x l IH]; simpl.
  - destruct (decide_rel elem_of p []) as [H|_]; [by apply elem_of_nil in H | done].
  - destruct (decide_rel elem_of x (l ++ [p])) as [H1|H1];
      destruct (decide_rel elem_of x l) as [H2|H2]; rewrite IH.
    + done.
    + apply elem_of_app in H1 as [?|Hp]; [done|].
      apply list_elem_of_singleton in Hp as ->.
      by rewrite filter_cons_False by (intros ?; done).
    + exfalso. apply H1, elem_of_app. by left.
    + rewrite filter_cons_True; [done|]. intros ->. apply H1, elem_of_app.
      right. left.
Qed.

Lemma filter_absent l p : p ∉ l → filter (λ x, x ≠ p) l = l.
Proof.
  induction l as [|x l IH]; [done|]. intros [Hx Hl]%not_elem_of_cons.
  rewrite filter_cons_True by congruence. by rewrite IH.
Qed.

Lemma filter_remove_first l l' p :
  NoDup l → remove_first p l = Some l' → filter (λ x, x ≠ p) l = l'.
Proof.
  intros Hnd (l1 & l2 & -> & -> & Hni)%remove_first_split.
  apply NoDup_app in Hnd as (_ & _ & [Hni2 _]%NoDup_cons).
  rewrite !filter_app, filter_cons_False by (intros ?; done).
  by rewrite !filter_absent.
Qed.

Lemma distinct_same l k : (∀ x, x ∈ l ↔ x ∈ k) → distinct l = distinct k.
Proof.
  intros H. unfold distinct. apply Permutation_length.
  apply NoDup_Permutation; [apply NoDup_remove_dups..|].
  intros x. by rewrite !elem_of_remove_dups.
Qed.

Lemma distinct_le l k : (∀ x, x ∈ l → x ∈ k) → distinct l ≤ distinct k.
Proof.
  intros H. unfold distinct. apply submseteq_length.
  apply NoDup_submseteq; [apply NoDup_remove_dups|].
  intros x. rewrite !elem_of_remove_dups. auto.
Qed.

Lemma distinct_snoc_new l p : p ∉ l → distinct (l ++ [p]) = S (distinct l).
Proof.
  intros Hp. unfold distinct. rewrite remove_dups_snoc, filter_absent.
  - rewrite length_app. simpl. lia.
  - by rewrite elem_of_remove_dups.
Qed.

Lemma distinct_snoc_old l p : p ∈ l → distinct (l ++ [p]) = distinct l.
Proof.
  intros Hp. apply distinct_same. intros x.
  rewrite elem_of_app, list_elem_of_singleton. split; [intros [?| ->]; done | auto].
Qed.

Lemma distinct_NoDup fs l :
  NoDup fs → (∀ x, x ∈ fs ↔ x ∈ l) → length fs = distinct l.
Proof.
  intros Hnd H. unfold distinct. apply Permutation_length.
  apply NoDup_Permutation; [done | apply NoDup_remove_dups|].
  intros x. by rewrite elem_of_remove_dups.
Qed.

Lemma distinct_NoDup_le fs l :
  NoDup fs → (∀ x, x ∈ fs → x ∈ l) → length fs ≤ distinct l.
Proof.
  intros Hnd H. unfold distinct. apply submseteq_length.
  apply NoDup_submseteq; [done|]. intros x. rewrite elem_of_remove_dups. auto.
Qed.

Lemma distinct_le_length l : distinct l ≤ length l.
Proof.
  unfold distinct. induction l as [|x l IH]; simpl; [done|].
  destruct (decide_rel elem_of x l); simpl; lia.
Qed.

End distinct_pages.

Section occupancy.
Context (cap : Z).
Implicit Types (fs pre σ : list Z) (p x : Z).

Lemma resident_of_length pre fs :
  resident_of cap pre fs →
  Z.of_nat (length fs) = Z.min cap (Z.of_nat (distinct pre)).
Proof.
  intros (Hnd & Hle & Hsub & Hall).
  destruct (decide (Z.of_nat (length fs) < cap)%Z) as [Hlt|Hge].
  - rewrite (distinct_NoDup fs pre Hnd); [|split; auto].
    rewrite (distinct_NoDup fs pre Hnd) in Hlt; [lia | split; auto].
  - pose proof (distinct_NoDup_le fs pre Hnd Hsub). lia.
Qed.

(** Every distinct page costs a fault. *)
Lemma chain_cold P fs σ tr fs' pre :
  chain P cap fs σ tr fs' → (∀ x, x ∈ fs → x ∈ pre) →
  distinct (pre ++ σ) ≤ distinct pre + fault_count tr.
Proof.
  intros Hch. revert pre.
  induction Hch as [|fs p a fs1 b σ tr fs2 Hm Hu Hch IH]; intros pre Hsub.
  - rewrite app_nil_r. lia.
  - rewrite fault_count_cons, cons_middle, app_assoc.
    assert (distinct (pre ++ [p]) ≤ distinct pre + Nat.b2n b) as Hp.
    { destruct (decide (p ∈ pre)) as [Hin|Hni].
      - rewrite distinct_snoc_old by done. lia.
      - rewrite distinct_snoc_new by done.
        assert (b = true) as -> by (eapply move_flag; eauto). simpl. lia. }
    assert (∀ x, x ∈ fs1 → x ∈ pre ++ [p]) as Hsub1.
    { intros x Hx. apply elem_of_app.
      destruct (move_elements _ _ _ _ _ _ Hm x Hx) as [->|?];
        [right; left | left; eauto]. }
    specialize (IH (pre ++ [p]) Hsub1). lia.
Qed.

(** When all the pages fit, a page faults once and only once. *)
Lemma chain_fits P fs σ tr fs' pre :
  chain P cap fs σ tr fs' →
  NoDup fs → (∀ x, x ∈ fs ↔ x ∈ pre) →
  (Z.of_nat (distinct (pre ++ σ)) ≤ cap)%Z →
  distinct pre + fault_count tr = distinct (pre ++ σ).
Proof.
  intros Hch. revert pre.
  induction Hch as [|fs p a fs1 b σ tr fs2 Hm Hu Hch IH]; intros pre Hnd Hsame Hfit.
  - rewrite app_nil_r. unfold fault_count. simpl. lia.
  - rewrite fault_count_cons. rewrite cons_middle, app_assoc in Hfit |- *.
    pose proof (move_NoDup _ _ _ _ _ _ Hm Hnd) as Hnd1.
    pose proof (move_perm _ _ _ _ _ _ Hm) as Hperm.
    pose proof (distinct_NoDup fs pre Hnd Hsame) as Hlen.
    assert (distinct (pre ++ [p]) ≤ distinct ((pre ++ [p]) ++ σ)) as Hmono.
    { apply distinct_le. intros x Hx. apply elem_of_app. by left. }
    destruct Hm as [Hin|fs0 Hin Hrm|Hni Hlt|k Hni Hfull Hk|z rest Hni Hfull ->].
    + rewrite <-(IH (pre ++ [p])); try done.
      * rewrite distinct_snoc_old by (by apply Hsame). simpl. lia.
      * intros x. rewrite elem_of_app, list_elem_of_singleton, Hsame.
        split; [auto|]. intros [?| ->]; [done | by apply Hsame].
    + rewrite <-(IH (pre ++ [p])); try done.
      * rewrite distinct_snoc_old by (by apply Hsame). simpl. lia.
      * intros x. rewrite Hperm, elem_of_app, list_elem_of_singleton, Hsame.
        split; [auto|]. intros [?| ->]; [done | by apply Hsame].
    + rewrite <-(IH (pre ++ [p])); try done.
      * rewrite distinct_snoc_new by (by rewrite <-Hsame). simpl. lia.
      * intros x. rewrite !elem_of_app, Hsame. done.
    + rewrite distinct_snoc_new in Hmono by (by rewrite <-Hsame). lia.
    + rewrite distinct_snoc_new in Hmono by (by rewrite <-Hsame). lia.
Qed.

End occupancy.

(** X7. Only referenced pages are resident, and as many as fit: after the
    reference at position [i], every page of [frames_after] occurs among
    the first [i+1] references, and the number of resident pages is the
    smaller of [frame_size] and the number of distinct pages referenced
    so far. *)
Theorem frames_hold_referenced_pages P σ cap :
  (1 ≤ cap)%Z →
  ∃ r, ALGORITHMS P σ cap = Ret r ∧
    ∀ i s, steps r !! i = Some s →
      (∀ x, x ∈ frames_after s → x ∈ take (S i) σ) ∧
      Z.of_nat (length (frames_after s))
      = Z.min cap (Z.of_nat (distinct (take (S i) σ))).
Proof.
  intros Hcap. destruct (run_chain cap Hcap P σ) as (tr & fs & E & Hch).
  eexists. split; [exact E|]. simpl. intros i s Hs.
  destruct (chain_prefix_inv P cap (resident_of cap)) with
    (fs := @nil Z) (σ := σ) (tr := tr) (fs' := fs) (pre := @nil Z) (i := i) (s := s)
    as [_ HJ]; try done.
  - intros. by eapply resident_of_step.
  - split; [constructor|]. split; [simpl; lia|]. split; [done|].
    intros _ x Hx. by apply elem_of_nil in Hx.
  - simpl in HJ. split; [apply HJ | by apply resident_of_length].
Qed.

Lemma frames_hold_referenced_pages_witness :
  ∃ r, ALGORITHMS LRU ref_string 3 = Ret r ∧
    ∀ i s, steps r !! i = Some s →
      (∀ x, x ∈ frames_after s → x ∈ take (S i) ref_string) ∧
      Z.of_nat (length (frames_after s))
      = Z.min 3 (Z.of_nat (distinct (take (S i) ref_string))).
Proof. apply (frames_hold_referenced_pages LRU ref_string 3). lia. Defined.

(** X8. The first reference to a page always faults, in every policy;
    and while a frame is still free these are the only faults. *)
Theorem first_reference_faults P σ cap :
  (1 ≤ cap)%Z →
  ∃ r, ALGORITHMS P σ cap = Ret r ∧
    ∀ i s, steps r !! i = Some s →
      (page s ∉ take i σ → page_fault s = true) ∧
      ((Z.of_nat (length (frames_before s)) < cap)%Z →
       page_fault s = true → page s ∉ take i σ).
Proof.
  intros Hcap. destruct (run_chain cap Hcap P σ) as (tr & fs & E & Hch).
  eexists. split; [exact E|]. simpl. intros i s Hs.
  destruct (chain_prefix_inv P cap (resident_of cap)) with
    (fs := @nil Z) (σ := σ) (tr := tr) (fs' := fs) (pre := @nil Z) (i := i) (s := s)
    as [(_ & _ & Hsub & Hall) _]; try done.
  - intros. by eapply resident_of_step.
  - split; [constructor|]. split; [simpl; lia|]. split; [done|].
    intros _ x Hx. by apply elem_of_nil in Hx.
  - destruct (chain_lookup P cap [] σ tr fs i s Hch) as (_ & _ & a & Hm & _);
      [constructor | simpl; lia | done |].
    apply move_flag in Hm. simpl in *. split.
    + intros Hnew. apply Hm. intros Hin. by apply Hnew, Hsub.
    + intros Hfree Hf Hold. apply Hm in Hf. by apply Hf, Hall.
Qed.

Lemma first_reference_faults_witness :
  ∃ r, ALGORITHMS Clock ref_string 3 = Ret r ∧
    ∀ i s, steps r !! i = Some s →
      (page s ∉ take i ref_string → page_fault s = true) ∧
      ((Z.of_nat (length (frames_before s)) < 3)%Z →
       page_fault s = true → page s ∉ take i ref_string).
Proof. apply (first_reference_faults Clock ref_string 3). lia. Defined.

(** X9. Every policy faults at least once per distinct page of the
    reference string and at most once per reference. *)
Theorem fault_count_bounds P σ cap :
  (1 ≤ cap)%Z →
  ∃ r, ALGORITHMS P σ cap = Ret r ∧
    (Z.of_nat (distinct σ) ≤ faults r ≤ Z.of_nat (length σ))%Z.
Proof.
  intros Hcap. destruct (run_chain cap Hcap P σ) as (tr & fs & E & Hch).
  eexists. split; [exact E|]. simpl.
  assert (distinct ([] ++ σ) ≤ distinct [] + fault_count tr) as Hlow
    by (by apply (chain_cold cap P [] σ tr fs [])).
  simpl in Hlow.
  pose proof (chain_pages P cap _ _ _ _ Hch) as Hp.
  assert (fault_count tr ≤ length σ).
  { rewrite <-Hp, length_fmap. apply length_filter. }
  assert (distinct [] = 0) as H0 by done. lia.
Qed.

Lemma fault_count_bounds_witness :
  ∃ r, ALGORITHMS FIFO ref_string 3 = Ret r ∧
    (Z.of_nat (distinct ref_string) ≤ faults r ≤ Z.of_nat (length ref_string))%Z.
Proof. apply (fault_count_bounds FIFO ref_string 3). lia. Defined.

(** X10. When the reference string has no more distinct pages than
    there are frames, nothing is ever evicted and every policy reports
    exactly one fault per distinct page. *)
Theorem no_eviction_when_pages_fit P σ cap :
  (1 ≤ cap)%Z → (Z.of_nat (distinct σ) ≤ cap)%Z →
  ∃ r, ALGORITHMS P σ cap = Ret r ∧ faults r = Z.of_nat (distinct σ).
Proof.
  intros Hcap Hfit. destruct (run_chain cap Hcap P σ) as (tr & fs & E & Hch).
  eexists. split; [exact E|]. simpl.
  assert (distinct [] + fault_count tr = distinct ([] ++ σ)) as Heq
    by (apply (chain_fits cap P [] σ tr fs []); [done | constructor | done | done]).
  assert (distinct [] = 0) as H0 by done. simpl in Heq. lia.
Qed.

Lemma no_eviction_when_pages_fit_witness :
  ∃ r, ALGORITHMS Optimal [5; 7; 5; 7; 7; 5]%Z 2 = Ret r ∧
       faults r = Z.of_nat (distinct [5; 7; 5; 7; 7; 5]%Z).
Proof.
  apply (no_eviction_when_pages_fit Optimal [5; 7; 5; 7; 7; 5]%Z 2); [lia|].
  vm_compute. discriminate.
Defined.

(** ** [lru] keeps the most recently used pages *)

Section recency_order.
Implicit Types (l A fs pre σ : list Z) (p x : Z) (c : nat).

Lemma last_n_app c A fs :
  length fs = c ∨ (A = [] ∧ length fs ≤ c) → last_n c (A ++ fs) = fs.
Proof.
  unfold last_n. intros [Hc|[-> Hc]].
  - apply drop_app_length'. rewrite length_app. lia.
  - simpl. replace (length fs - c) with 0 by lia. done.
Qed.

Lemma last_n_split c l :
  ∃ A, l = A ++ last_n c l ∧
       (length (last_n c l) = c ∨ (A = [] ∧ length (last_n c l) ≤ c)).
Proof.
  unfold last_n. exists (take (length l - c) l). split; [by rewrite take_drop|].
  rewrite length_drop. destruct (decide (c ≤ length l)).
  - left. lia.
  - right. replace (length l - c) with 0 by lia. split; [done | lia].
Qed.

Lemma last_n_mono c1 c2 l x : c1 ≤ c2 → x ∈ last_n c1 l → x ∈ last_n c2 l.
Proof.
  unfold last_n. intros Hc Hx.
  replace (length l - c1) with ((length l - c2) + (c2 - c1 - (c2 - length l))) in Hx
    by lia.
  rewrite <-drop_drop in Hx. by eapply subseteq_drop.
Qed.

(** One reference, seen from the recency order. *)
Lemma lru_recent_step cap pre p fs a fs' b future :
  fs = recent cap pre →
  move cap p fs a fs' b → uses LRU future fs a →
  fs' = recent cap (pre ++ [p]).
Proof.
  unfold recent, recency. intros -> Hm Hu. rewrite remove_dups_snoc.
  pose proof (NoDup_remove_dups pre) as Hnd.
  destruct (last_n_split (Z.to_nat cap) (remove_dups pre)) as (A & HS & Hlen).
  remember (last_n (Z.to_nat cap) (remove_dups pre)) as fs eqn:Hfs.
  remember (remove_dups pre) as S eqn:HeqS. clear HeqS Hfs. subst S.
  apply NoDup_app in Hnd as (_ & _ & Hndfs).
  rewrite filter_app.
  destruct Hm as [Hin|fs0 Hin Hrm|Hni Hlt|k Hni Hfull Hk|z rest Hni Hfull ->];
    try done.
  - (* hit: moved to the back *)
    rewrite (filter_remove_first fs fs0 p Hndfs Hrm), <-app_assoc.
    symmetry. apply last_n_app.
    apply remove_first_perm, Permutation_length in Hrm. simpl in Hrm.
    rewrite length_app. simpl.
    destruct Hlen as [Hc|[-> Hc]]; [left; lia | right; split; [done | lia]].
  - (* fault with a free frame *)
    rewrite (filter_absent fs p Hni), <-app_assoc.
    symmetry. apply last_n_app. rewrite length_app. simpl.
    destruct Hlen as [Hc|[-> Hc]]; [lia | right; split; [done | lia]].
  - (* fault with full frames *)
    rewrite (filter_absent (z :: rest) p Hni).
    replace ((filter (λ x, x ≠ p) A ++ z :: rest) ++ [p])
      with ((filter (λ x, x ≠ p) A ++ [z]) ++ (rest ++ [p]))
      by (by rewrite <-!app_assoc).
    symmetry. apply last_n_app. left. rewrite length_app. simpl in *. lia.
Qed.

Lemma lru_monotone_chain (cap1 cap2 : Z) pre σ fs1 fs2 tr1 tr2 e1 e2 :
  (cap1 ≤ cap2)%Z →
  fs1 = recent cap1 pre → fs2 = recent cap2 pre →
  chain LRU cap1 fs1 σ tr1 e1 → chain LRU cap2 fs2 σ tr2 e2 →
  fault_count tr2 ≤ fault_count tr1.
Proof.
  intros Hc Hfs1 Hfs2 H1. revert pre fs2 tr2 e2 Hfs1 Hfs2.
  induction H1 as [|fs1 p a1 fs1' b1 σ tr1 e1 Hm1 Hu1 Hch1 IH];
    intros pre fs2 tr2 e2 Hfs1 Hfs2 H2.
  - by inversion H2.
  - inversion H2 as [|? ? a2 fs2' b2 ? tr2' ? Hm2 Hu2 Hch2]; subst.
    rewrite !fault_count_cons.
    specialize (IH (pre ++ [p]) fs2' tr2' e2
      (lru_recent_step _ _ _ _ _ _ _ _ eq_refl Hm1 Hu1)
      (lru_recent_step _ _ _ _ _ _ _ _ eq_refl Hm2 Hu2) Hch2).
    assert (Nat.b2n b2 ≤ Nat.b2n b1); [|lia].
    apply move_flag in Hm1, Hm2. destruct b2; simpl; [|lia].
    assert (b1 = true) as ->; [|done].
    apply Hm1. intros Hin. apply Hm2; [done|].
    unfold recent in *. eapply last_n_mono; [|exact Hin]. lia.
Qed.

End recency_order.

(** X11. [lru] keeps the most recently used pages: before and after the
    reference at position [i] its frames are the [frame_size] most
    recently referenced distinct pages of the references made so far,
    least recently used first.  So the page it evicts, the front one,
    is the least recently used resident page. *)
Theorem lru_frames_are_most_recent σ cap :
  (1 ≤ cap)%Z →
  ∃ r, lru σ cap = Ret r ∧
    ∀ i s, steps r !! i = Some s →
      frames_before s = recent cap (take i σ) ∧
      frames_after s = recent cap (take (S i) σ).
Proof.
  intros Hcap. destruct (run_chain cap Hcap LRU σ) as (tr & fs & E & Hch).
  eexists. split; [exact E|]. simpl. intros i s Hs.
  apply (chain_prefix_inv LRU cap (λ pre fs, fs = recent cap pre))
    with (fs := @nil Z) (σ := σ) (tr := tr) (fs' := fs) (pre := @nil Z) (i := i) (s := s);
    try done.
  intros. by eapply lru_recent_step.
Qed.

Lemma lru_frames_are_most_recent_witness :
  ∃ r, lru ref_string 3 = Ret r ∧
    ∀ i s, steps r !! i = Some s →
      frames_before s = recent 3 (take i ref_string) ∧
      frames_after s = recent 3 (take (S i) ref_string).
Proof. apply (lru_frames_are_most_recent ref_string 3). lia. Defined.

(** X12. [lru] has no Belady anomaly: on the same reference string, more
    frames never give more faults. *)
Theorem lru_more_frames_no_more_faults σ cap1 cap2 :
  (1 ≤ cap1)%Z → (cap1 ≤ cap2)%Z →
  ∃ r1 r2, lru σ cap1 = Ret r1 ∧ lru σ cap2 = Ret r2 ∧
           (faults r2 ≤ faults r1)%Z.
Proof.
  intros H1 H12.
  destruct (run_chain cap1 H1 LRU σ) as (tr1 & e1 & E1 & Hch1).
  destruct (run_chain cap2 ltac:(lia) LRU σ) as (tr2 & e2 & E2 & Hch2).
  eexists _, _. split; [exact E1|]. split; [exact E2|]. simpl.
  pose proof (lru_monotone_chain cap1 cap2 [] σ [] [] tr1 tr2 e1 e2 H12
                eq_refl eq_refl Hch1 Hch2). lia.
Qed.

Lemma lru_more_frames_no_more_faults_witness :
  ∃ r1 r2, lru ref_string 3 = Ret r1 ∧ lru ref_string 4 = Ret r2 ∧
           (faults r2 ≤ faults r1)%Z.
Proof. apply (lru_more_frames_no_more_faults ref_string 3 4); lia. Defined.

Example recency_example :
  recency [1; 2; 1; 3; 2]%Z = [1; 3; 2]%Z ∧ recent 2 [1; 2; 1; 3; 2]%Z = [3; 2]%Z.
Proof. split; reflexivity. Qed.

(** ** [fifo] keeps the pages loaded last *)

Section load_order.
Context (cap : Z).
Implicit Types (fs σ hist : list Z) (tr : list step).

Lemma loaded_cons p fs fs' (b : bool) tr :
  loaded (Step p fs fs' b :: tr) = (if b then [p] else []) ++ loaded tr.
Proof. unfold loaded. rewrite filter_cons. by destruct b. Qed.

Lemma fifo_load_step hist p fs a fs' (b : bool) future :
  fs = last_n (Z.to_nat cap) hist →
  move cap p fs a fs' b → uses FIFO future fs a →
  fs' = last_n (Z.to_nat cap) (hist ++ if b then [p] else []).
Proof.
  intros Hfs Hm Hu.
  destruct (last_n_split (Z.to_nat cap) hist) as (A & HS & Hlen).
  rewrite <-Hfs in HS, Hlen. clear Hfs. subst hist.
  destruct Hm as [Hin|fs0 Hin Hrm|Hni Hlt|k Hni Hfull Hk|z rest Hni Hfull ->];
    try done.
  - rewrite app_nil_r. symmetry. by apply last_n_app.
  - rewrite <-app_assoc. symmetry. apply last_n_app. rewrite length_app. simpl.
    destruct Hlen as [Hc|[-> Hc]]; [lia | right; split; [done | lia]].
  - replace ((A ++ z :: rest) ++ [p]) with ((A ++ [z]) ++ (rest ++ [p]))
      by (by rewrite <-!app_assoc).
    symmetry. apply last_n_app. left. rewrite length_app. simpl in *. lia.
Qed.

Lemma fifo_load_chain fs σ tr fs' hist i s :
  chain FIFO cap fs σ tr fs' →
  fs = last_n (Z.to_nat cap) hist →
  tr !! i = Some s →
  frames_after s = last_n (Z.to_nat cap) (hist ++ loaded (take (S i) tr)).
Proof.
  intros Hch. revert hist i.
  induction Hch as [|fs p a fs1 b σ tr fs2 Hm Hu Hch IH]; intros hist i Hfs Hi; [done|].
  pose proof (fifo_load_step _ _ _ _ _ _ _ Hfs Hm Hu) as Hfs1.
  destruct i as [|i]; simpl in Hi.
  - injection Hi as <-. simpl. rewrite take_0, loaded_cons.
    unfold loaded at 1. simpl. by rewrite app_nil_r.
  - rewrite (IH _ i Hfs1 Hi). simpl. by rewrite loaded_cons, app_assoc.
Qed.

End load_order.

(** X13. [fifo] keeps the pages loaded last: after every reference its
    frames are the last [frame_size] pages that faulted so far, oldest
    load first.  So the page it evicts, the front one, is the resident
    page that was loaded earliest. *)
Theorem fifo_frames_are_last_loaded σ cap :
  (1 ≤ cap)%Z →
  ∃ r, fifo σ cap = Ret r ∧
    ∀ i s, steps r !! i = Some s →
      frames_after s = last_n (Z.to_nat cap) (loaded (take (S i) (steps r))).
Proof.
  intros Hcap. destruct (run_chain cap Hcap FIFO σ) as (tr & fs & E & Hch).
  eexists. split; [exact E|]. simpl. intros i s Hs.
  by rewrite (fifo_load_chain cap [] σ tr fs [] i s Hch eq_refl Hs).
Qed.

Lemma fifo_frames_are_last_loaded_witness :
  ∃ r, fifo ref_string 3 = Ret r ∧
    ∀ i s, steps r !! i = Some s →
      frames_after s = last_n (Z.to_nat 3) (loaded (take (S i) (steps r))).
Proof. apply (fifo_frames_are_last_loaded ref_string 3). lia. Defined.

(** ** The second chance *)

Section second_chance_guarantee.
Context (cap : Z) (Hcap : (1 ≤ cap)%Z).
Implicit Types (bits : list Z) (hand v n : Z).

Lemma wrap_add hand n :
  (0 ≤ hand < cap)%Z → (0 ≤ n ≤ cap)%Z →
  ((hand + n) `mod` cap)%Z
  = (if decide (hand + n < cap)%Z then hand + n else hand + n - cap)%Z.
Proof using Hcap.
  intros Hh Hn. case_decide.
  - apply Z.mod_small. lia.
  - symmetry. apply (Z.mod_unique_pos _ _ 1); lia.
Qed.

(** The sweep passes [n] set bits, at most once around, and stops on a
    bit that was clear from the start unless it went all the way
    round. *)
Lemma sweeps_count bits hand bits' v :
  sweeps cap bits hand bits' v →
  Z.of_nat (length bits) = cap → (0 ≤ hand < cap)%Z →
  ∃ n, (0 ≤ n ≤ cap)%Z ∧ v = ((hand + n) `mod` cap)%Z ∧
    (∀ i, (0 ≤ i < n)%Z → bits !! Z.to_nat ((hand + i) `mod` cap) = Some 1%Z) ∧
    ((n < cap)%Z → bits !! Z.to_nat v = Some 0%Z).
Proof using Hcap.
  induction 1 as [bits hand H0|bits hand bits' v H1 Hsw IH]; intros Hlen Hh.
  - exists 0%Z. split; [lia|]. split; [by rewrite Z.add_0_r, Z.mod_small|].
    split; [intros; lia | done].
  - assert (0 ≤ (hand + 1) `mod` cap < cap)%Z as Hh1 by (apply Z.mod_pos_bound; lia).
    destruct IH as (n & Hn & Hv & Hones & Hstop);
      [by rewrite length_insert | done |].
    assert (<[Z.to_nat hand := 0%Z]> bits !! Z.to_nat hand = Some 0%Z) as Hcleared
      by (apply list_lookup_insert_eq; lia).
    assert ((hand + 1) `mod` cap
            = if decide (hand + 1 < cap)%Z then hand + 1 else hand + 1 - cap)%Z as Eh1
      by (apply wrap_add; lia).
    assert (n < cap)%Z as Hnlt.
    { destruct (decide (n = cap)) as [->|]; [|lia]. exfalso.
      specialize (Hones (cap - 1)%Z ltac:(lia)).
      replace (((hand + 1) `mod` cap + (cap - 1)) `mod` cap)%Z with hand in Hones;
        [congruence|].
      rewrite Eh1. case_decide.
      - apply (Z.mod_unique_pos _ _ 1); lia.
      - replace (hand + 1 - cap + (cap - 1))%Z with hand by lia.
        by rewrite Z.mod_small. }
    assert (∀ i, (0 ≤ i ≤ cap)%Z →
              ((hand + 1) `mod` cap + i) `mod` cap = (hand + (i + 1)) `mod` cap)%Z
      as Hshift.
    { intros i Hi. rewrite Z.add_mod_idemp_l by lia. f_equal. lia. }
    exists (n + 1)%Z. split; [lia|]. split; [by rewrite Hv, Hshift by lia|]. split.
    + intros i Hi. destruct (decide (i = 0%Z)) as [->|Hi0].
      * by rewrite Z.add_0_r, Z.mod_small.
      * specialize (Hones (i - 1)%Z ltac:(lia)).
        rewrite Hshift in Hones by lia.
        replace (i - 1 + 1)%Z with i in Hones by lia.
        destruct (decide (Z.to_nat hand = Z.to_nat ((hand + i) `mod` cap))) as [E|Hne].
        -- rewrite <-E in Hones. congruence.
        -- by rewrite list_lookup_insert_ne in Hones.
    + intros Hn1. specialize (Hstop Hnlt). rewrite Hv, Hshift in Hstop |- * by lia.
      rewrite list_lookup_insert_ne in Hstop; [done|].
      rewrite (wrap_add hand (n + 1)) by lia.
      destruct (decide (hand + (n + 1) < cap)%Z); lia.
Qed.

(** A page whose bit is set is passed over, unless every bit is set. *)
Lemma sweeps_spares_set_bits bits hand bits' v :
  sweeps cap bits hand bits' v →
  Z.of_nat (length bits) = cap → (0 ≤ hand < cap)%Z →
  bits !! Z.to_nat v = Some 0%Z ∨ Forall (λ b, b = 1%Z) bits.
Proof using Hcap.
  intros Hsw Hlen Hh.
  destruct (sweeps_count _ _ _ _ Hsw Hlen Hh) as (n & Hn & Hv & Hones & Hstop).
  destruct (decide (n < cap)%Z) as [Hlt|Hge]; [by left; apply Hstop|].
  right. apply Forall_lookup. intros j b Hj.
  apply lookup_lt_Some in Hj as Hjlt.
  assert (0 ≤ (Z.of_nat j - hand) `mod` cap < cap)%Z as Hi
    by (apply Z.mod_pos_bound; lia).
  specialize (Hones ((Z.of_nat j - hand) `mod` cap)%Z ltac:(lia)).
  rewrite Z.add_mod_idemp_r in Hones by lia.
  replace (hand + (Z.of_nat j - hand))%Z with (Z.of_nat j) in Hones by lia.
  rewrite (Z.mod_small (Z.of_nat j)), Nat2Z.id in Hones by lia.
  congruence.
Qed.

(** Every state the loop of [second_chance] reaches satisfies the
    invariant. *)
Lemma second_chance_reach pre st :
  for_each (second_chance_body cap) ([], [], 0%Z, 0%Z, []) pre = Ret st →
  rb_inv cap st.
Proof using Hcap.
  intros Hpre.
  destruct (second_chance_loop cap Hcap pre _ (rb_inv_init cap Hcap))
    as (? & ? & ? & ? & E & HI & _).
  rewrite Hpre in E. by simplify_eq/=.
Qed.

End second_chance_guarantee.

(** X14. The second chance: when [second_chance] faults on full frames,
    the slot it overwrites had its reference bit clear before the sweep,
    unless every reference bit was set.  A page whose bit is set is
    therefore never evicted while some resident page has its bit
    clear. *)
Theorem second_chance_spares_referenced
    cap pre page frames ref_bits pointer page_faults steps :
  (1 ≤ cap)%Z →
  for_each (second_chance_body cap) ([], [], 0%Z, 0%Z, []) pre
  = Ret (frames, ref_bits, pointer, page_faults, steps) →
  page ∉ frames → Z.of_nat (length frames) = cap →
  ∃ victim bits' pointer',
    (0 ≤ victim < cap)%Z ∧
    for_each (second_chance_body cap) ([], [], 0%Z, 0%Z, []) (pre ++ [page])
    = Ret (<[Z.to_nat victim := page]> frames, bits', pointer', (page_faults + 1)%Z,
           steps ++ [Step page frames (<[Z.to_nat victim := page]> frames) true]) ∧
    (ref_bits !! Z.to_nat victim = Some 0%Z ∨ Forall (λ b, b = 1%Z) ref_bits).
Proof.
  intros Hcap Hpre Hni Hfull.
  pose proof (second_chance_reach cap Hcap pre _ Hpre) as HI.
  destruct (second_chance_full cap Hcap _ _ _ page_faults steps _ HI Hni Hfull)
    as (bits1 & victim & Hsw & Hv & _ & _ & E).
  destruct HI as (_ & _ & Hlen & _ & Hptr).
  exists victim, (<[Z.to_nat victim := 1%Z]> bits1), ((victim + 1) `mod` cap)%Z.
  split; [done|]. split.
  - by rewrite for_each_snoc, Hpre.
  - eapply sweeps_spares_set_bits; eauto. lia.
Qed.

Lemma second_chance_spares_referenced_witness :
  ∃ victim bits' pointer',
    (0 ≤ victim < 2)%Z ∧
    for_each (second_chance_body 2) ([], [], 0%Z, 0%Z, []) ([4; 5] ++ [6])%Z
    = Ret (<[Z.to_nat victim := 6%Z]> [4; 5]%Z, bits', pointer', (2 + 1)%Z,
           [Step 4 [] [4%Z] true; Step 5 [4%Z] [4; 5]%Z true] ++
           [Step 6 [4; 5]%Z (<[Z.to_nat victim := 6%Z]> [4; 5]%Z) true]) ∧
    ([1; 1]%Z !! Z.to_nat victim = Some 0%Z ∨ Forall (λ b, b = 1%Z) [1; 1]%Z).
Proof.
  apply (second_chance_spares_referenced 2 [4; 5]%Z 6 [4; 5]%Z [1; 1]%Z 0 2
           [Step 4 [] [4%Z] true; Step 5 [4%Z] [4; 5]%Z true]).
  - lia.
  - reflexivity.
  - rewrite !not_elem_of_cons. repeat split; try lia. apply not_elem_of_nil.
  - reflexivity.
Defined.

(** X15. The bookkeeping of [second_chance] and [clock] stays sound:
    after any number of references both loops are in the same state,
    [ref_bits] has one entry per resident page, every entry is 0 or 1,
    and the pointer is a valid frame index below [frame_size]. *)
Theorem reference_bits_stay_sound cap pre :
  (1 ≤ cap)%Z →
  ∃ frames ref_bits pointer page_faults steps,
    for_each (second_chance_body cap) ([], [], 0%Z, 0%Z, []) pre
    = Ret (frames, ref_bits, pointer, page_faults, steps) ∧
    for_each (clock_body cap) ([], [], 0%Z, 0%Z, []) pre
    = Ret (frames, ref_bits, pointer, page_faults, steps) ∧
    length ref_bits = length frames ∧
    Forall (λ b, b = 0%Z ∨ b = 1%Z) ref_bits ∧
    (0 ≤ pointer < cap)%Z.
Proof.
  intros Hcap.
  destruct (second_chance_loop cap Hcap pre _ (rb_inv_init cap Hcap))
    as (fs & bits & ptr & tr & E & HI & _).
  destruct HI as (_ & _ & Hlen & Hbits & Hptr).
  eexists _, _, _, _, _. split; [exact E|].
  split; [|done]. rewrite clock_loop_eq by (done || by apply rb_inv_init). exact E.
Qed.

Lemma reference_bits_stay_sound_witness :
  ∃ frames ref_bits pointer page_faults steps,
    for_each (second_chance_body 3) ([], [], 0%Z, 0%Z, []) ref_string
    = Ret (frames, ref_bits, pointer, page_faults, steps) ∧
    for_each (clock_body 3) ([], [], 0%Z, 0%Z, []) ref_string
    = Ret (frames, ref_bits, pointer, page_faults, steps) ∧
    length ref_bits = length frames ∧
    Forall (λ b, b = 0%Z ∨ b = 1%Z) ref_bits ∧
    (0 ≤ pointer < 3)%Z.
Proof. apply (reference_bits_stay_sound 3 ref_string). lia. Defined.

(** ** The simulator window *)

Section window.
Import Gui.
Implicit Types (w : window) (rs : dict result) (k : string) (r : result).

Lemma dict_get_set_eq {V} (d : dict V) k v : dict_get (dict_set d k v) k = Some v.
Proof.
  induction d as [|[k' v'] d IH]; simpl.
  - by rewrite decide_True.
  - destruct (decide (k' = k)) as [->|Hne]; simpl.
    + by rewrite decide_True.
    + by rewrite decide_False.
Qed.

Lemma dict_get_set_ne {V} (d : dict V) k k' v :
  k ≠ k' → dict_get (dict_set d k v) k' = dict_get d k'.
Proof.
  intros Hne. induction d as [|[k0 v0] d IH]; simpl.
  - by rewrite decide_False.
  - destruct (decide (k0 = k)) as [->|Hne0]; simpl.
    + by rewrite !decide_False.
    + destruct (decide (k0 = k')); done.
Qed.

(** After [setup_visualization] every result has its grid. *)
Lemma grids_cover (n : nat) rs (g0 : dict nat) k :
  (∃ r, (k, r) ∈ rs) ∨ dict_get g0 k = Some n →
  dict_get (foldl (λ g (kr : string * result), dict_set g kr.1 n) g0 rs) k = Some n.
Proof.
  revert g0. induction rs as [|[k0 r0] rs IH]; intros g0 H; simpl.
  - destruct H as [[r Hr]|H]; [by apply elem_of_nil in Hr | done].
  - apply IH. destruct (decide (k0 = k)) as [->|Hne].
    + right. apply dict_get_set_eq.
    + destruct H as [[r Hr]|H].
      * apply elem_of_cons in Hr as [[= <- _]|Hr]; [done | eauto].
      * right. by rewrite dict_get_set_ne.
Qed.

(** What the window needs to know about a result. *)
Lemma run_facts P l cap r :
  (1 ≤ cap)%Z → ALGORITHMS P l cap = Ret r →
  length (steps r) = length l ∧
  ∀ s, s ∈ steps r → (Z.of_nat (length (frames_after s)) ≤ cap)%Z.
Proof.
  intros Hcap E. destruct (run_chain cap Hcap P l) as (tr & fs & E' & Hch).
  rewrite E in E'. injection E' as ->. simpl. split.
  - pose proof (chain_pages P cap _ _ _ _ Hch) as Hp.
    by rewrite <-Hp, length_fmap.
  - intros s Hs.
    destruct (chain_elem P cap [] l tr fs s Hch) as (Hnd & Hle & a & _ & Hm & _);
      [constructor | simpl; lia | done |].
    by eapply move_length.
Qed.

Lemma min_steps_same rs (n : nat) :
  rs ≠ [] → (∀ k r, (k, r) ∈ rs → length (steps r) = n) →
  min_steps rs = Done (Z.of_nat n).
Proof.
  destruct rs as [|[k0 r0] rest]; [done|]. intros _ H. simpl. f_equal.
  rewrite (H k0 r0) by left.
  assert (∀ k r, (k, r) ∈ rest → length (steps r) = n) as Hrest
    by (intros; eapply H; by right).
  clear H. induction rest as [|[k r] rest IH]; simpl; [done|].
  rewrite (Hrest k r) by left. rewrite Z.min_id. apply IH.
  intros; eapply Hrest; by right.
Qed.

Lemma item_lookup {A} (l : list A) (i : Z) x :
  (0 ≤ i)%Z → l !! Z.to_nat i = Some x → item l i = Done x.
Proof.
  intros Hi Hx. unfold item. apply lookup_lt_Some in Hx as Hlt.
  rewrite norm_index_in_range by lia. by rewrite Hx.
Qed.

Lemma length_paint n fa pf : length (paint n fa pf) = n.
Proof. unfold paint. by rewrite length_fmap, length_seq. Qed.

Lemma pages_shown_paint n fa pf : pages_shown (paint n fa pf) = take n fa.
Proof.
  unfold paint, pages_shown. induction n as [|n IH]; [by rewrite take_0|].
  rewrite seq_S, fmap_app, omap_app, IH. simpl.
  destruct (fa !! n) as [x|] eqn:E; simpl.
  - by rewrite (take_S_r _ _ x).
  - apply lookup_ge_None in E. rewrite app_nil_r, !take_ge by lia. done.
Qed.

Lemma each_Forall2 {A B} (f : A → run B) (Q : A → B → Prop) (l : list A) :
  (∀ x, x ∈ l → ∃ y, f x = Done y ∧ Q x y) →
  ∃ ys, each f l = Done ys ∧ Forall2 Q l ys.
Proof.
  induction l as [|x l IH]; intros H; simpl.
  - exists []. split; [done | constructor].
  - destruct (H x) as (y & -> & Hy); [left|].
    destruct IH as (ys & -> & Hys); [intros; apply H; by right|].
    exists (y :: ys). split; [done | by constructor].
Qed.

Lemma update_visualization_shows l cap w :
  (1 ≤ cap)%Z → shows l cap w →
  ∃ scr, update_visualization w = Done (w, Some scr) ∧ screen_of cap w scr.
Proof.
  intros Hcap (Hne & Hres & Hcs). destruct w as [rs cs g]. simpl in *.
  assert (∀ k r, (k, r) ∈ rs → length (steps r) = length l) as Hlen.
  { intros k r Hkr. destruct (Hres k r Hkr) as (_ & P & _ & E).
    by destruct (run_facts P l cap r Hcap E). }
  unfold update_visualization. simpl.
  destruct rs as [|[k0 r0] rest] eqn:Ers; [done|]. rewrite <-Ers in *.
  rewrite (min_steps_same rs (length l)) by done. simpl.
  rewrite bool_decide_eq_false_2, bool_decide_eq_false_2 by lia.
  assert (∀ k r, (k, r) ∈ rs → ∃ s, steps r !! Z.to_nat cs = Some s) as Hstep.
  { intros k r Hkr. apply lookup_lt_is_Some_2. rewrite (Hlen k r Hkr). lia. }
  destruct (Hstep k0 r0) as [s0 Hs0]; [rewrite Ers; left|].
  rewrite (item_lookup _ _ _ (proj1 Hcs) Hs0). simpl.
  destruct (each_Forall2
    (λ kr : string * result,
       step ← item (steps kr.2) cs;
       labels ← (match dict_get g kr.1 with
                 | Some n => Done n
                 | None => Crash KeyError
                 end);
       Done (kr.1, paint labels (frames_after step) (page_fault step)))
    (λ (kr : string * result) (gr : string * list cell),
       gr.1 = kr.1 ∧
       ∃ s, steps kr.2 !! Z.to_nat cs = Some s ∧
            length gr.2 = Z.to_nat cap ∧ pages_shown gr.2 = frames_after s) rs)
    as (gs & -> & Hgs).
  { intros [k r] Hkr. simpl.
    destruct (Hstep k r Hkr) as [s Hs].
    destruct (Hres k r Hkr) as (Hg & P & _ & E).
    rewrite (item_lookup _ _ _ (proj1 Hcs) Hs), Hg. simpl.
    eexists. split; [done|]. simpl. split; [done|]. exists s.
    split; [done|]. split; [apply length_paint|].
    rewrite pages_shown_paint. apply take_ge.
    destruct (run_facts P l cap r Hcap E) as [_ Hfa].
    specialize (Hfa s ltac:(by eapply list_elem_of_lookup_2)). lia. }
  simpl. eexists. split; [done|]. split; [done|]. exact Hgs.
Qed.

(** A click on a navigation button of a window that shows a simulation. *)
Lemma press_shows l cap w (c : press) :
  (1 ≤ cap)%Z → shows l cap w →
  ∃ w' o,
    (match c with Next => next_step w | Prev => prev_step w end) = Done (w', o) ∧
    shows l cap w' ∧ results w' = results w ∧
    (∀ scr, o = Some scr → screen_of cap w' scr).
Proof.
  intros Hcap Hw. pose proof Hw as (Hne & Hres & Hcs).
  destruct w as [rs cs g]. simpl in *.
  assert (∀ k r, (k, r) ∈ rs → length (steps r) = length l) as Hlen.
  { intros k r Hkr. destruct (Hres k r Hkr) as (_ & P & _ & E).
    by destruct (run_facts P l cap r Hcap E). }
  destruct c; unfold next_step, prev_step; simpl;
    destruct rs as [|kr0 rest] eqn:Ers; try done; rewrite <-Ers in *.
  - rewrite (min_steps_same rs (length l)) by done. simpl.
    case_bool_decide as Hlt.
    + destruct (update_visualization_shows l cap (Window rs (cs + 1) g) Hcap)
        as (scr & -> & Hscr); [split; [done|]; split; [done | simpl; lia]|].
      eexists _, _. split; [done|]. split; [split; [done|]; split; [done|simpl; lia]|].
      split; [done|]. by intros ? [= <-].
    + eexists _, _. split; [done|]. split; [done|]. split; done.
  - case_bool_decide as Hlt.
    + destruct (update_visualization_shows l cap (Window rs (cs - 1) g) Hcap)
        as (scr & -> & Hscr); [split; [done|]; split; [done | simpl; lia]|].
      eexists _, _. split; [done|]. split; [split; [done|]; split; [done|simpl; lia]|].
      split; [done|]. by intros ? [= <-].
    + eexists _, _. split; [done|]. split; [done|]. split; done.
Qed.

Lemma navigate_shows l cap w clicks :
  (1 ≤ cap)%Z → shows l cap w →
  ∃ w' o, navigate w clicks = Done (w', o) ∧
    shows l cap w' ∧ results w' = results w ∧
    (∀ scr, o = Some scr → screen_of cap w' scr).
Proof.
  intros Hcap. revert w. induction clicks as [|c clicks IH]; intros w Hw.
  - exists w, None. split; [done|]. split; [done|]. split; done.
  - destruct (press_shows l cap w c Hcap Hw) as (w1 & o1 & E1 & Hw1 & Hr1 & Hs1).
    simpl. rewrite E1. simpl. destruct clicks as [|c' clicks'].
    + eauto 10.
    + destruct (IH w1 Hw1) as (w2 & o2 & E2 & Hw2 & Hr2 & Hs2).
      exists w2, o2. split; [done|]. split; [done|]. split; [congruence | done].
Qed.

End window.

Section run_button.
Import Gui.
Implicit Types (w : window) (rs : dict result) (k : string) (r : result).

(** [min] with a key returns the first entry that nothing undercuts. *)
Lemma first_minimum (b0 : string * result) rest :
  let best := foldl (λ best kr : string * result,
                       if bool_decide (faults kr.2 < faults best.2)%Z then kr else best)
                    b0 rest in
  ∃ before after,
    b0 :: rest = before ++ best :: after ∧
    (∀ x, x ∈ before → (faults best.2 < faults x.2)%Z) ∧
    (∀ x, x ∈ after → (faults best.2 ≤ faults x.2)%Z).
Proof.
  induction rest as [|x rest IH] using rev_ind; simpl.
  - exists [], []. split; [done|]. split; intros ? H; by apply elem_of_nil in H.
  - rewrite foldl_app. simpl. destruct IH as (before & after & E & Hb & Ha).
    set (best := foldl _ b0 rest) in *.
    case_bool_decide as Hlt.
    + exists (b0 :: rest), []. split; [by rewrite app_comm_cons|]. split.
      * intros y Hy. rewrite E in Hy.
        apply elem_of_app in Hy as [Hy|Hy]; [specialize (Hb y Hy); lia|].
        apply elem_of_cons in Hy as [->|Hy]; [done|]. specialize (Ha y Hy). lia.
      * intros ? H; by apply elem_of_nil in H.
    + exists before, (after ++ [x]). split.
      * by rewrite app_comm_cons, E, <-app_assoc.
      * split; [done|]. intros y Hy.
        apply elem_of_app in Hy as [Hy|Hy]; [by apply Ha|].
        apply list_elem_of_singleton in Hy as ->. lia.
Qed.

Lemma most_efficient_spec rs best :
  most_efficient rs = Some best →
  ∃ r before after,
    rs = before ++ (best, r) :: after ∧
    (∀ x, x ∈ before → (faults r < faults x.2)%Z) ∧
    (∀ x, x ∈ after → (faults r ≤ faults x.2)%Z).
Proof.
  destruct rs as [|b0 rest]; [done|]. unfold most_efficient. intros [= <-].
  destruct (first_minimum b0 rest) as (before & after & E & Hb & Ha).
  eexists _, before, after. split; [|done].
  rewrite E. f_equal. f_equal. by destruct (foldl _ b0 rest).
Qed.

(** [optimal] against any registered policy. *)
Lemma optimal_le P l cap ro r :
  (1 ≤ cap)%Z → optimal l cap = Ret ro → ALGORITHMS P l cap = Ret r →
  (faults ro ≤ faults r)%Z.
Proof.
  intros Hcap EO EA.
  destruct (run_chain cap Hcap Optimal l) as (trO & Me & EO' & HO).
  destruct (run_chain cap Hcap P l) as (trA & Ae & EA' & HA).
  simpl in EO'. rewrite EO in EO'. rewrite EA in EA'.
  injection EO' as ->. injection EA' as ->. simpl.
  assert (ahead cap l [] [] 0) as Hah
    by (apply ahead_perm; [done | constructor | simpl; lia]).
  pose proof (belady_chain cap P l [] [] 0 trO trA Me Ae Hah HO HA). lia.
Qed.

Lemma run_selected_ok l cap sel :
  (1 ≤ cap)%Z → sel ∈ dropdown →
  ∃ rs, run_selected l cap sel = Done rs ∧ rs ≠ [] ∧
    (∀ k r, (k, r) ∈ rs → ∃ P, k = policy_name P ∧ ALGORITHMS P l cap = Ret r) ∧
    (sel = "All Algorithms" →
     ∃ rf rl ro rsc rc,
       fifo l cap = Ret rf ∧ lru l cap = Ret rl ∧ optimal l cap = Ret ro ∧
       second_chance l cap = Ret rsc ∧ clock l cap = Ret rc ∧
       rs = [("FIFO", rf); ("LRU", rl); ("Optimal", ro);
             ("Second Chance", rsc); ("Clock", rc)]).
Proof.
  intros Hcap Hsel.
  destruct (run_chain cap Hcap FIFO l) as (t1 & ? & E1 & _).
  destruct (run_chain cap Hcap LRU l) as (t2 & ? & E2 & _).
  destruct (run_chain cap Hcap Optimal l) as (t3 & ? & E3 & _).
  destruct (run_chain cap Hcap SecondChance l) as (t4 & ? & E4 & _).
  destruct (run_chain cap Hcap Clock l) as (t5 & ? & E5 & _).
  simpl in E1, E2, E3, E4, E5.
  assert (∀ k r,
    (k, r) ∈ [("FIFO", Result (Z.of_nat (fault_count t1)) t1);
              ("LRU", Result (Z.of_nat (fault_count t2)) t2);
              ("Optimal", Result (Z.of_nat (fault_count t3)) t3);
              ("Second Chance", Result (Z.of_nat (fault_count t4)) t4);
              ("Clock", Result (Z.of_nat (fault_count t5)) t5)] →
    ∃ P, k = policy_name P ∧ ALGORITHMS P l cap = Ret r) as Hall.
  { intros k r Hkr. repeat (apply elem_of_cons in Hkr as [[= -> ->]|Hkr]);
      [by exists FIFO | by exists LRU | by exists Optimal
      | by exists SecondChance | by exists Clock | by apply elem_of_nil in Hkr]. }
  unfold dropdown in Hsel.
  repeat (apply elem_of_cons in Hsel as [->|Hsel]); [..|by apply elem_of_nil in Hsel];
    unfold run_selected; simpl; rewrite ?E1, ?E2, ?E3, ?E4, ?E5; simpl;
    (eexists; split; [done|]; split; [done|]; split;
      [|first [done | intros _; by eexists _, _, _, _, _]]).
  - done.
  - intros k r Hkr. apply Hall. apply list_elem_of_singleton in Hkr as ->.
    repeat first [by left | right].
  - intros k r Hkr. apply Hall. apply list_elem_of_singleton in Hkr as ->.
    repeat first [by left | right].
  - intros k r Hkr. apply Hall. apply list_elem_of_singleton in Hkr as ->.
    repeat first [by left | right].
  - intros k r Hkr. apply Hall. apply list_elem_of_singleton in Hkr as ->.
    repeat first [by left | right].
  - intros k r Hkr. apply Hall. apply list_elem_of_singleton in Hkr as ->.
    repeat first [by left | right].
Qed.

(** A run that passes the frame-size check. *)
Lemma run_simulation_ok w l field sel cap :
  l ≠ [] → sel ∈ dropdown →
  read_frame_size field = Done cap → (1 ≤ cap ≤ 10)%Z →
  ∃ rs w' best scr,
    run_selected l cap sel = Done rs ∧
    run_simulation w (Some l) field sel
    = Done (w', Completed (Some best) (Some scr)) ∧
    results w' = rs ∧ current_step w' = 0%Z ∧
    most_efficient rs = Some best ∧
    shows l cap w' ∧ screen_of cap w' scr.
Proof.
  intros Hl Hsel Hread Hcap.
  destruct (run_selected_ok l cap sel) as (rs & Ers & Hne & Hres & _); [lia | done |].
  unfold run_simulation. rewrite Hread. simpl.
  rewrite bool_decide_eq_false_2, bool_decide_eq_false_2 by lia. simpl.
  rewrite Ers. simpl.
  set (w1 := setup_visualization cap (Window rs 0 (algo_grids w))).
  assert (shows l cap w1) as Hw1.
  { split; [done|]. split.
    - intros k r Hkr. split; [|by apply Hres].
      unfold w1, setup_visualization. simpl.
      rewrite bool_decide_eq_false_2 by lia. apply grids_cover. eauto.
    - simpl. destruct l; [done | simpl; lia]. }
  destruct (update_visualization_shows l cap w1 ltac:(lia) Hw1) as (scr & -> & Hscr).
  simpl. destruct (most_efficient rs) as [best|] eqn:Eb;
    [|by destruct rs].
  exists rs, w1, best, scr. done.
Qed.

End run_button.



(** X17. With "All Algorithms" selected the window holds the results of
    the five policies in registry order, and the policy it names as most
    efficient is the first one in that order whose fault count equals
    that of [optimal]: no policy is ever reported with fewer faults than
    [optimal]. *)
Theorem most_efficient_matches_optimal w l field cap :
  l ≠ [] → Gui.read_frame_size field = Gui.Done cap → (1 ≤ cap ≤ 10)%Z →
  ∃ rf rl ro rsc rc w' best scr,
    fifo l cap = Ret rf ∧ lru l cap = Ret rl ∧ optimal l cap = Ret ro ∧
    second_chance l cap = Ret rsc ∧ clock l cap = Ret rc ∧
    Gui.run_simulation w (Some l) field "All Algorithms"
    = Gui.Done (w', Gui.Completed (Some best) (Some scr)) ∧
    Gui.results w' = [("FIFO", rf); ("LRU", rl); ("Optimal", ro);
                      ("Second Chance", rsc); ("Clock", rc)] ∧
    ∃ rb before after,
      Gui.results w' = before ++ (best, rb) :: after ∧
      faults rb = faults ro ∧
      ∀ x, x ∈ before → (faults ro < faults x.2)%Z.
Proof.
  intros Hl Hread Hcap.
  assert ("All Algorithms" ∈ Gui.dropdown) as Hsel by left.
  destruct (run_simulation_ok w l field _ cap Hl Hsel Hread Hcap)
    as (rs & w' & best & scr & Ers & E & Hrs & _ & Hbest & _ & _).
  destruct (run_selected_ok l cap "All Algorithms") as (rs' & Ers' & _ & Hres & Hall);
    [lia | done |].
  rewrite Ers in Ers'. injection Ers' as <-.
  destruct (Hall eq_refl) as (rf & rl & ro & rsc & rc & Ef & El & Eo & Es & Ec & Hlist).
  exists rf, rl, ro, rsc, rc, w', best, scr.
  repeat (split; [done|]). split; [congruence|].
  destruct (most_efficient_spec rs best Hbest) as (rb & before & after & Hsplit & Hb & Ha).
  assert (faults ro ≤ faults rb)%Z as Hle.
  { destruct (Hres best rb) as (P & _ & EP).
    - rewrite Hsplit. apply elem_of_app. right. left.
    - eapply optimal_le; eauto. lia. }
  assert (faults rb ≤ faults ro)%Z as Hge.
  { assert (("Optimal", ro) ∈ rs) as Hin by (rewrite Hlist; repeat first [by left | right]).
    rewrite Hsplit in Hin. apply elem_of_app in Hin as [Hin|Hin].
    - specialize (Hb _ Hin). simpl in Hb. lia.
    - apply elem_of_cons in Hin as [[= <- <-]|Hin]; [lia|].
      by specialize (Ha _ Hin). }
  exists rb, before, after. rewrite Hrs. split; [done|]. split; [lia|].
  intros x Hx. specialize (Hb x Hx). lia.
Qed.

Lemma most_efficient_matches_optimal_witness :
  ∃ rf rl ro rsc rc w' best scr,
    fifo ref_string 3 = Ret rf ∧ lru ref_string 3 = Ret rl ∧
    optimal ref_string 3 = Ret ro ∧
    second_chance ref_string 3 = Ret rsc ∧ clock ref_string 3 = Ret rc ∧
    Gui.run_simulation (Gui.Window [] 0 []) (Some ref_string) Gui.NotDigits
      "All Algorithms"
    = Gui.Done (w', Gui.Completed (Some best) (Some scr)) ∧
    Gui.results w' = [("FIFO", rf); ("LRU", rl); ("Optimal", ro);
                      ("Second Chance", rsc); ("Clock", rc)] ∧
    ∃ rb before after,
      Gui.results w' = before ++ (best, rb) :: after ∧
      faults rb = faults ro ∧
      ∀ x, x ∈ before → (faults ro < faults x.2)%Z.
Proof.
  apply (most_efficient_matches_optimal (Gui.Window [] 0 []) ref_string Gui.NotDigits 3).
  - done.
  - reflexivity.
  - lia.
Defined.

(** A completed run passed the frame-size check. *)
Lemma completed_run w l field sel cap w' best shown :
  l ≠ [] → sel ∈ Gui.dropdown → Gui.read_frame_size field = Gui.Done cap →
  Gui.run_simulation w (Some l) field sel
  = Gui.Done (w', Gui.Completed best shown) →
  (1 ≤ cap ≤ 10)%Z ∧ shows l cap w' ∧ Gui.current_step w' = 0%Z ∧
  ∀ scr, shown = Some scr → screen_of cap w' scr.
Proof.
  intros Hl Hsel Hread Hrun.
  destruct (decide (1 ≤ cap ≤ 10)%Z) as [Hcap|Hcap].
  - destruct (run_simulation_ok w l field sel cap Hl Hsel Hread Hcap)
      as (rs & w1 & best1 & scr & _ & E & _ & Hcs & _ & Hw1 & Hscr).
    rewrite E in Hrun. injection Hrun as <- <- <-.
    split; [done|]. split; [done|]. split; [done|]. by intros ? [= <-].
  - exfalso. unfold Gui.run_simulation in Hrun. rewrite Hread in Hrun. simpl in Hrun.
    destruct (decide (cap ≤ 0)%Z).
    + by rewrite bool_decide_eq_true_2 in Hrun.
    + rewrite bool_decide_eq_false_2 in Hrun by done.
      by rewrite bool_decide_eq_true_2 in Hrun by lia.
Qed.

(** X18. After a completed run the navigation buttons are safe: whatever
    series of Next and Previous clicks follows, no click crashes, the
    results stay as they are, and [current_step] stays a valid position
    of the reference string, so every subscript [steps[current_step]]
    is in range. *)
Theorem navigation_stays_in_range w l field sel cap w' best shown clicks :
  l ≠ [] → sel ∈ Gui.dropdown → Gui.read_frame_size field = Gui.Done cap →
  Gui.run_simulation w (Some l) field sel
  = Gui.Done (w', Gui.Completed best shown) →
  ∃ w'' o,
    navigate w' clicks = Gui.Done (w'', o) ∧
    Gui.results w'' = Gui.results w' ∧
    (0 ≤ Gui.current_step w'' < Z.of_nat (length l))%Z.
Proof.
  intros Hl Hsel Hread Hrun.
  destruct (completed_run _ _ _ _ _ _ _ _ Hl Hsel Hread Hrun) as (Hcap & Hw' & _).
  destruct (navigate_shows l cap w' clicks ltac:(lia) Hw')
    as (w'' & o & E & (_ & _ & Hcs) & Hr & _).
  eauto.
Qed.

Lemma navigation_stays_in_range_witness :
  ∃ w' best shown,
    Gui.run_simulation (Gui.Window [] 0 []) (Some [1; 2; 1]%Z) (Gui.Decimal 2) "Clock"
    = Gui.Done (w', Gui.Completed best shown) ∧
    ∃ w'' o,
      navigate w' [Next; Next; Next; Prev] = Gui.Done (w'', o) ∧
      Gui.results w'' = Gui.results w' ∧
      (0 ≤ Gui.current_step w'' < Z.of_nat (length [1; 2; 1]%Z))%Z.
Proof.
  eexists _, _, _. split; [reflexivity|].
  eapply (navigation_stays_in_range (Gui.Window [] 0 []) [1; 2; 1]%Z
            (Gui.Decimal 2) "Clock" 2).
  - done.
  - unfold Gui.dropdown. repeat first [by left | right].
  - reflexivity.
  - reflexivity.
Defined.

(** X19. Nothing resident is cut off the screen: whenever the window
    paints, after the run or after any clicks on the navigation buttons,
    each algorithm's grid has [frame_size] labels, and the pages written
    on them are exactly that algorithm's [frames_after] at the current
    step, in order; the remaining labels carry dashes. *)
Theorem screen_shows_all_frames w l field sel cap w' best shown :
  l ≠ [] → sel ∈ Gui.dropdown → Gui.read_frame_size field = Gui.Done cap →
  Gui.run_simulation w (Some l) field sel
  = Gui.Done (w', Gui.Completed best shown) →
  (∃ scr, shown = Some scr ∧ screen_of cap w' scr) ∧
  ∀ clicks w'' scr,
    navigate w' clicks = Gui.Done (w'', Some scr) → screen_of cap w'' scr.
Proof.
  intros Hl Hsel Hread Hrun.
  destruct (completed_run _ _ _ _ _ _ _ _ Hl Hsel Hread Hrun)
    as (Hcap & Hw' & _ & Hshown).
  split.
  - destruct (run_simulation_ok w l field sel cap Hl Hsel Hread Hcap)
      as (rs & w1 & best1 & scr & _ & E & _).
    rewrite E in Hrun. injection Hrun as <- <- <-. eauto.
  - intros clicks w'' scr Hnav.
    destruct (navigate_shows l cap w' clicks ltac:(lia) Hw')
      as (w2 & o & E & _ & _ & Hscr).
    rewrite E in Hnav. injection Hnav as <- ->. by apply Hscr.
Qed.

Lemma screen_shows_all_frames_witness :
  ∃ w' best shown,
    Gui.run_simulation (Gui.Window [] 0 []) (Some [1; 2; 1]%Z) (Gui.Decimal 2) "Optimal"
    = Gui.Done (w', Gui.Completed best shown) ∧
    (∃ scr, shown = Some scr ∧ screen_of 2 w' scr) ∧
    ∀ clicks w'' scr,
      navigate w' clicks = Gui.Done (w'', Some scr) → screen_of 2 w'' scr.
Proof.
  eexists _, _, _. split; [reflexivity|].
  eapply (screen_shows_all_frames (Gui.Window [] 0 []) [1; 2; 1]%Z
            (Gui.Decimal 2) "Optimal" 2).
  - done.
  - unfold Gui.dropdown. repeat first [by left | right].
  - reflexivity.
  - reflexivity.
Defined.
